(** * goldmine-connect: the rlogin handshake and the relay loop

    The repository holds two programs that share one design: the
    kingpin-based client (positional arguments) and the flag-based client
    (named flags).  Both dial the server, send one NUL-delimited handshake
    and then relay bytes between the local streams and the socket from a
    [select] loop fed by two reader goroutines.

    Go strings are modelled as [string] (a sequence of 8-bit characters),
    byte slices as [list byte], durations and instants as [Z] in
    nanoseconds, exactly as [time.Duration] counts them. *)

From Stdlib Require Import ZArith List String Ascii Bool Lia.
From Stdlib.Strings Require Import Byte.
Import ListNotations.

Local Open Scope string_scope.
Local Open Scope Z_scope.

(** ** Configuration *)

(** [time.Millisecond], in nanoseconds. *)
Definition Millisecond : Z := 1000000.

(** The [CommandLine] struct.  [xtrn] is a [*string]: [None] is the nil
    pointer. *)
Record CommandLine := {
  host : string;
  port : Z;
  name : string;
  tag : string;
  xtrn : option string;
  timeout : Z
}.

(** The [TelnetClient] struct; the resolved address is kept as text. *)
Record TelnetClient := {
  destination : string;
  responseTimeout : Z
}.

(** The one-character string "\x00". *)
Definition NUL : string := String Ascii.zero EmptyString.

(** [fmt.Sprintf("\x00%s\x00[%s]%s\x00", localUsername, tag, remoteUsername)] *)
Definition Sprintf_handshake (localUsername tag remoteUsername : string) : string :=
  NUL ++ localUsername ++ NUL ++ "[" ++ tag ++ "]" ++ remoteUsername ++ NUL.

(** The test [options.Xtrn() != nil && *options.Xtrn() != ""], returning
    the code when it holds. *)
Definition door_code (options : CommandLine) : option string :=
  match xtrn options with
  | Some code => if String.eqb code "" then None else Some code
  | None => None
  end.

(** [[]byte(s)] *)
Definition bytes_of (s : string) : list byte := list_byte_of_string s.

(** ** Handshake of the kingpin-based client *)
Module KingpinClient.

Definition localUsername : string := "local_username".

Definition handshake (options : CommandLine) : string :=
  let remoteUsername := name options in
  let tag := tag options in
  let handshake := Sprintf_handshake localUsername tag remoteUsername in
  match door_code options with
  | Some code => handshake ++ "xtrn=" ++ code ++ NUL
  | None => handshake
  end.

End KingpinClient.

(** ** Handshake of the flag-based client *)
Module FlagClient.

Definition localUsername : string := "".

Definition handshake (options : CommandLine) : string :=
  let remoteUsername := name options in
  let tag := tag options in
  let handshake := Sprintf_handshake localUsername tag remoteUsername in
  match door_code options with
  | Some code => handshake ++ "xtrn=" ++ code ++ NUL
  | None => handshake ++ NUL
  end.

End FlagClient.

(** The fixed part of the payload, up to and including the NUL that ends
    the [[tag]remoteUsername] field. *)
Definition fixed_fields (localUsername : string) (options : CommandLine) : string :=
  Sprintf_handshake localUsername (tag options) (name options).

(** [payload] carries an xtrn field right after the fixed fields written
    with [localUsername]. *)
Definition has_xtrn_field (localUsername : string) (options : CommandLine)
    (payload : string) : Prop :=
  exists code, payload = fixed_fields localUsername options ++ "xtrn=" ++ code ++ NUL.

(** The door code is present and non-empty. *)
Definition door_code_given (options : CommandLine) : Prop :=
  exists code, xtrn options = Some code /\ code <> "".

(** Scenario A of the specification. *)
Definition scenario_A (x : option string) : CommandLine :=
  {| host := "example.com"; port := 2513; name := "bob"; tag := "ABC";
     xtrn := x; timeout := 1000 * Millisecond |}.

(** ** The outside world of one session *)

(** The error half of what a [Read] call returns. *)
Inductive ReadErr :=
| ErrNil
| ErrEOF
| ErrOther (msg : string).

(** What one call of [Read(buffer)] returns: the [n] bytes it stored at the
    front of the buffer (at most [len(buffer)] of them) and the error. *)
Record ReadResult := {
  rd_data : list byte;
  rd_err : ReadErr
}.

(** What [connection.Write(p)] returns: success, or an error after the
    first [n] bytes of [p] went out. *)
Inductive WriteResult :=
| WriteOk
| WriteFailed (n : nat) (msg : string).

(** What [net.DialTCP] returns. *)
Inductive DialResult :=
| DialOk
| DialFailed (msg : string).

(** Everything the environment decides: the outcome of the dial and of the
    handshake write, and what the successive reads of local input and of
    the socket return.  A read on an exhausted list blocks for ever. *)
Record Environment := {
  env_dial : DialResult;
  env_handshake : WriteResult;
  env_stdin : list ReadResult;
  env_socket : list ReadResult
}.

(** ** Observable actions *)

Inductive Actor :=
| Orchestrator
| InputPump
| ServerPump.

Inductive Effect :=
| Dial (r : DialResult)
| StdinRead (r : ReadResult)
| ConnRead (r : ReadResult)
| ConnWrite (data : list byte) (r : WriteResult)
| ConnClose
| OutWrite (data : list byte)
| Log (msg : string)
| ProcessEnds (status : Z).

Definition Trace := list (Actor * Effect).

(** The bytes a [ConnWrite] really put on the wire. *)
Definition wire_bytes (data : list byte) (r : WriteResult) : list byte :=
  match r with
  | WriteOk => data
  | WriteFailed n _ => firstn n data
  end.

(** All bytes the orchestrator put on the connection, in order. *)
Fixpoint sent_to_connection (tr : Trace) : list byte :=
  match tr with
  | [] => []
  | (Orchestrator, ConnWrite data r) :: rest =>
      (wire_bytes data r ++ sent_to_connection rest)%list
  | _ :: rest => sent_to_connection rest
  end.

(** All bytes the input pump obtained from reads that returned a nil
    error, in order. *)
Fixpoint read_from_stdin (tr : Trace) : list byte :=
  match tr with
  | [] => []
  | (InputPump, StdinRead r) :: rest =>
      match rd_err r with
      | ErrNil => (rd_data r ++ read_from_stdin rest)%list
      | _ => read_from_stdin rest
      end
  | _ :: rest => read_from_stdin rest
  end.

(** All chunks written to local output, in order. *)
Fixpoint written_to_output (tr : Trace) : list (list byte) :=
  match tr with
  | [] => []
  | (_, OutWrite data) :: rest => data :: written_to_output rest
  | _ :: rest => written_to_output rest
  end.

Definition is_close (e : Actor * Effect) : bool :=
  match e with
  | (_, ConnClose) => true
  | _ => false
  end.

Definition is_close_by (a : Actor) (e : Actor * Effect) : bool :=
  match a, e with
  | Orchestrator, (Orchestrator, ConnClose) => true
  | InputPump, (InputPump, ConnClose) => true
  | ServerPump, (ServerPump, ConnClose) => true
  | _, _ => false
  end.

(** How many times [connection.Close()] was called, by anyone. *)
Definition closes (tr : Trace) : nat := List.length (filter is_close tr).

(** How many times [connection.Close()] was called by [a]. *)
Definition closes_by (a : Actor) (tr : Trace) : nat :=
  List.length (filter (is_close_by a) tr).

(** ** The ticker *)

(** A running [time.Ticker]: the instant of its next tick and its period. *)
Record Ticker := {
  fires_at : Z;
  every : Z
}.

(** [time.NewTicker(d)] called at instant [now]; it panics when [d] is
    not positive. *)
Definition NewTicker (now d : Z) : option Ticker :=
  if 0 <? d then Some {| fires_at := now + d; every := d |} else None.

(** The runtime re-arms the ticker when a tick is delivered. *)
Definition rearm (k : Ticker) : Ticker :=
  {| fires_at := fires_at k + every k; every := every k |}.

(** ** The [select] loop of [ProcessData] *)

(** The local variables of the loop.  [closing] is declared by the
    flag-based client only; the kingpin-based client never reads or
    writes it. *)
Record LoopVars := {
  afterEOFMode : bool;
  somethingRead : bool;
  closing : bool;
  afterEOFResponseTicker : Ticker
}.

(** Why [ProcessData] left its loop by [return]. *)
Inductive Reason :=
| WriteError
| InactivityTimeout
| RemoteDisconnect
| ClosingStopWrites
| ClosingStopReads.

(** The case [select] picked, with the value received and, for a request,
    what [connection.Write] is going to return. *)
Inductive SelectCase :=
| CaseRequest (request : list byte) (r : WriteResult)
| CaseDone
| CaseResponse (response : list byte)
| CaseTick
| CaseDisconnect.

Inductive Outcome :=
| Continue (v : LoopVars)
| Return (why : Reason)
| Panic.

Definition set_afterEOFMode (b : bool) (v : LoopVars) : LoopVars :=
  {| afterEOFMode := b; somethingRead := somethingRead v;
     closing := closing v; afterEOFResponseTicker := afterEOFResponseTicker v |}.

Definition set_somethingRead (b : bool) (v : LoopVars) : LoopVars :=
  {| afterEOFMode := afterEOFMode v; somethingRead := b;
     closing := closing v; afterEOFResponseTicker := afterEOFResponseTicker v |}.

Definition set_closing (b : bool) (v : LoopVars) : LoopVars :=
  {| afterEOFMode := afterEOFMode v; somethingRead := somethingRead v;
     closing := b; afterEOFResponseTicker := afterEOFResponseTicker v |}.

Definition set_ticker (k : Ticker) (v : LoopVars) : LoopVars :=
  {| afterEOFMode := afterEOFMode v; somethingRead := somethingRead v;
     closing := closing v; afterEOFResponseTicker := k |}.

(** The body of [case request := <-requestDataChannel], from the write on. *)
Definition write_request (v : LoopVars) (request : list byte) (r : WriteResult)
    : list Effect * Outcome :=
  match r with
  | WriteOk => ([ConnWrite request r], Continue v)
  | WriteFailed _ msg =>
      ([ConnWrite request r;
        Log ("Error occurred while writing to TCP socket: " ++ msg)],
       Return WriteError)
  end.

(** The body of [case response := <-responseDataChannel], from the write
    on; [now] is the instant at which it runs.  [OutWrite] records the
    call of [outputData.Write]; the code discards what the call returns. *)
Definition relay_response (t : TelnetClient) (now : Z) (v : LoopVars)
    (response : list byte) : list Effect * Outcome :=
  let v := set_somethingRead true v in
  if afterEOFMode v then
    match NewTicker now (responseTimeout t) with
    | Some k => ([OutWrite response], Continue (set_ticker k v))
    | None => ([OutWrite response], Panic)
    end
  else ([OutWrite response], Continue v).

Module KingpinLoop.

Definition select_case (t : TelnetClient) (now : Z) (v : LoopVars)
    (c : SelectCase) : list Effect * Outcome :=
  match c with
  | CaseRequest request r => write_request v request r
  | CaseDone => ([], Continue (set_afterEOFMode true v))
  | CaseResponse response => relay_response t now v response
  | CaseTick =>
      if afterEOFMode v && negb (somethingRead v) then
        ([Log "Connection timeout with no response received."],
         Return InactivityTimeout)
      else ([], Continue v)
  | CaseDisconnect => ([Log "Server disconnected."], Return RemoteDisconnect)
  end.

End KingpinLoop.

Module FlagLoop.

Definition select_case (t : TelnetClient) (now : Z) (v : LoopVars)
    (c : SelectCase) : list Effect * Outcome :=
  match c with
  | CaseRequest request r =>
      if closing v then
        ([Log "Connection closing; stopping writes."], Return ClosingStopWrites)
      else write_request v request r
  | CaseDone => ([], Continue (set_closing true (set_afterEOFMode true v)))
  | CaseResponse response =>
      if closing v then
        ([Log "Connection closing; stopping reads."], Return ClosingStopReads)
      else relay_response t now v response
  | CaseTick =>
      if afterEOFMode v && negb (somethingRead v) then
        ([Log "Connection timeout with no response received."],
         Return InactivityTimeout)
      else ([], Continue v)
  | CaseDisconnect =>
      ([Log "Server disconnected. Exiting."], Return RemoteDisconnect)
  end.

End FlagLoop.

(** The two programs. *)
Inductive Client :=
| Kingpin
| Flag.

Definition handshake (c : Client) : CommandLine -> string :=
  match c with
  | Kingpin => KingpinClient.handshake
  | Flag => FlagClient.handshake
  end.

Definition select_case (c : Client)
    : TelnetClient -> Z -> LoopVars -> SelectCase -> list Effect * Outcome :=
  match c with
  | Kingpin => KingpinLoop.select_case
  | Flag => FlagLoop.select_case
  end.

(** ** The three goroutines together *)

Definition defaultBufferSize : nat := 4096.

(** [make([]byte, defaultBufferSize)] *)
Definition make_buffer : list byte := repeat x00 defaultBufferSize.

(** [Read(buffer)] stores the bytes it returns at the front of [buffer]
    and leaves the rest of it as it was. *)
Definition read_into (buffer data : list byte) : list byte :=
  (data ++ skipn (List.length data) buffer)%list.

(** Where a pump stands in its loop: about to call [Read], blocked sending
    the slice [buffer[:n]] on its data channel, blocked sending [true] on
    its signal channel, or gone. *)
Inductive PumpState :=
| Reading
| Sending (n : nat)
| Signalling
| Terminated.

(** Where [ProcessData] stands: blocked in [select]; holding the slice
    [buffer[:n]] it has just received from a pump, the body of the case
    still to run; returned; unwound by a panic; or stopped by
    [log.Fatalf] before the loop. *)
Inductive Control :=
| Selecting (v : LoopVars)
| HoldingRequest (v : LoopVars) (n : nat)
| HoldingResponse (v : LoopVars) (n : nat)
| Returned (why : Reason)
| Panicked
| Fatal.

Record World := {
  now : Z;
  stdin : list ReadResult;
  socket : list ReadResult;
  input_buffer : list byte;
  server_buffer : list byte;
  input_pump : PumpState;
  server_pump : PumpState;
  orch : Control;
  trace : Trace;
  exit_status : option Z
}.

Definition set_now (x : Z) (w : World) : World :=
  {| now := x; stdin := stdin w; socket := socket w;
     input_buffer := input_buffer w; server_buffer := server_buffer w;
     input_pump := input_pump w; server_pump := server_pump w;
     orch := orch w; trace := trace w; exit_status := exit_status w |}.

Definition set_input (rest : list ReadResult) (buffer : list byte)
    (p : PumpState) (w : World) : World :=
  {| now := now w; stdin := rest; socket := socket w;
     input_buffer := buffer; server_buffer := server_buffer w;
     input_pump := p; server_pump := server_pump w;
     orch := orch w; trace := trace w; exit_status := exit_status w |}.

Definition set_server (rest : list ReadResult) (buffer : list byte)
    (p : PumpState) (w : World) : World :=
  {| now := now w; stdin := stdin w; socket := rest;
     input_buffer := input_buffer w; server_buffer := buffer;
     input_pump := input_pump w; server_pump := p;
     orch := orch w; trace := trace w; exit_status := exit_status w |}.

Definition set_input_pump (p : PumpState) (w : World) : World :=
  set_input (stdin w) (input_buffer w) p w.

Definition set_server_pump (p : PumpState) (w : World) : World :=
  set_server (socket w) (server_buffer w) p w.

Definition set_orch (k : Control) (w : World) : World :=
  {| now := now w; stdin := stdin w; socket := socket w;
     input_buffer := input_buffer w; server_buffer := server_buffer w;
     input_pump := input_pump w; server_pump := server_pump w;
     orch := k; trace := trace w; exit_status := exit_status w |}.

(** [a] performs [es], in this order. *)
Definition record (a : Actor) (es : list Effect) (w : World) : World :=
  {| now := now w; stdin := stdin w; socket := socket w;
     input_buffer := input_buffer w; server_buffer := server_buffer w;
     input_pump := input_pump w; server_pump := server_pump w;
     orch := orch w; trace := (trace w ++ map (pair a) es)%list;
     exit_status := exit_status w |}.

(** The process is over, with [status]; the action of [a] ended it. *)
Definition ends (a : Actor) (status : Z) (w : World) : World :=
  {| now := now w; stdin := stdin w; socket := socket w;
     input_buffer := input_buffer w; server_buffer := server_buffer w;
     input_pump := input_pump w; server_pump := server_pump w;
     orch := orch w; trace := (trace w ++ [(a, ProcessEnds status)])%list;
     exit_status := Some status |}.

(** [log.Fatalf]: the message is printed and [os.Exit(1)] ends the
    process at once; deferred calls do not run. *)
Definition Fatalf (a : Actor) (msg : string) (w : World) : World :=
  ends a 1 (record a [Log msg] w).

(** [ProcessData] unwinds, by [return] or by a panic: the deferred closure
    closes the connection and logs it, then [main] has nothing left to do
    and the process is over.  The unwinding is taken as one step: what the
    pumps may still do between the return and the end of the process is
    left out. *)
Definition leave (k : Control) (status : Z) (w : World) : World :=
  ends Orchestrator status
    (record Orchestrator [ConnClose; Log "Connection closed."] (set_orch k w)).

(** Run the body of the case [select] picked, with loop variables [v]. *)
Definition run_case (c : Client) (t : TelnetClient) (v : LoopVars)
    (k : SelectCase) (w : World) : World :=
  let (effects, out) := select_case c t (now w) v k in
  let w := record Orchestrator effects w in
  match out with
  | Continue v' => set_orch (Selecting v') w
  | Return why => leave (Returned why) 0 w
  | Panic => leave Panicked 2 w
  end.

(** One turn of [readInputData]'s loop up to its channel send: the read,
    then the branch on [err]. *)
Definition readInputData_read (r : ReadResult) (rest : list ReadResult)
    (w : World) : World :=
  let buffer := read_into (input_buffer w) (rd_data r) in
  let n := List.length (rd_data r) in
  let w := record InputPump [StdinRead r] w in
  match rd_err r with
  | ErrNil => set_input rest buffer (Sending n) w
  | ErrEOF => set_input rest buffer Signalling w
  | ErrOther msg =>
      Fatalf InputPump ("Error reading input data: " ++ msg)
        (set_input rest buffer Reading w)
  end.

(** One turn of [readServerData]'s loop up to its channel send. *)
Definition readServerData_read (r : ReadResult) (rest : list ReadResult)
    (w : World) : World :=
  let buffer := read_into (server_buffer w) (rd_data r) in
  let n := List.length (rd_data r) in
  let w := record ServerPump [ConnRead r] w in
  match rd_err r with
  | ErrNil => set_server rest buffer (Sending n) w
  | ErrEOF =>
      set_server rest buffer Signalling
        (record ServerPump [Log "Server closed the connection."] w)
  | ErrOther msg =>
      set_server rest buffer Signalling
        (record ServerPump
           [Log ("Error occurred while reading from server: " ++ msg)] w)
  end.

(** What the scheduler, the environment and the clock can do next. *)
Inductive Label :=
| InputRead                  (* the input pump's [reader.Read] returns *)
| InputHandoff               (* [select] takes what the input pump sends *)
| RunRequest (r : WriteResult) (* the body of the request case runs *)
| ServerRead                 (* the server pump's [connection.Read] returns *)
| ServerHandoff              (* [select] takes what the server pump sends *)
| RunResponse                (* the body of the response case runs *)
| Tick                       (* [select] takes a tick of the ticker *)
| Delay (d : Z).             (* [d] nanoseconds pass with [select] blocked *)

(** One step of the session.  [None]: the step cannot happen in [w].  Case
    bodies take no time; a tick is taken at the instant it fires, so time
    never runs past a tick that is due. *)
Definition step (c : Client) (t : TelnetClient) (l : Label) (w : World)
    : option World :=
  match exit_status w with
  | Some _ => None
  | None =>
      match l with
      | InputRead =>
          match input_pump w, stdin w with
          | Reading, r :: rest => Some (readInputData_read r rest w)
          | _, _ => None
          end
      | InputHandoff =>
          match input_pump w, orch w with
          | Sending n, Selecting v =>
              Some (set_orch (HoldingRequest v n) (set_input_pump Reading w))
          | Signalling, Selecting v =>
              Some (run_case c t v CaseDone (set_input_pump Terminated w))
          | _, _ => None
          end
      | RunRequest r =>
          match orch w with
          | HoldingRequest v n =>
              Some (run_case c t v (CaseRequest (firstn n (input_buffer w)) r) w)
          | _ => None
          end
      | ServerRead =>
          match server_pump w, socket w with
          | Reading, r :: rest => Some (readServerData_read r rest w)
          | _, _ => None
          end
      | ServerHandoff =>
          match server_pump w, orch w with
          | Sending n, Selecting v =>
              Some (set_orch (HoldingResponse v n) (set_server_pump Reading w))
          | Signalling, Selecting v =>
              Some (run_case c t v CaseDisconnect (set_server_pump Terminated w))
          | _, _ => None
          end
      | RunResponse =>
          match orch w with
          | HoldingResponse v n =>
              Some (run_case c t v (CaseResponse (firstn n (server_buffer w))) w)
          | _ => None
          end
      | Tick =>
          match orch w with
          | Selecting v =>
              let k := afterEOFResponseTicker v in
              if now w =? fires_at k then
                Some (run_case c t (set_ticker (rearm k) v) CaseTick w)
              else None
          | _ => None
          end
      | Delay d =>
          match orch w with
          | Selecting v =>
              if (0 <=? d) && (now w + d <=? fires_at (afterEOFResponseTicker v))
              then Some (set_now (now w + d) w)
              else None
          | _ => None
          end
      end
  end.

Fixpoint run (c : Client) (t : TelnetClient) (sched : list Label) (w : World)
    : option World :=
  match sched with
  | [] => Some w
  | l :: rest =>
      match step c t l w with
      | Some w' => run c t rest w'
      | None => None
      end
  end.

(** [NewTelnetClient], the address already resolved. *)
Definition NewTelnetClient (options : CommandLine) (resolved : string)
    : TelnetClient :=
  {| destination := resolved; responseTimeout := timeout options |}.

(** The double quote character, as a string. *)
Definition DQUOTE : string := String (ascii_of_nat 34) EmptyString.

(** [ProcessData] from its first line to the first [select]: the dial, the
    deferred close, the handshake write, the two [go] statements and the
    ticker.  The result is the world in which the loop starts at instant
    0, or the world in which the process is already over. *)
Definition ProcessData (c : Client) (t : TelnetClient) (options : CommandLine)
    (env : Environment) : World :=
  let w :=
    {| now := 0; stdin := env_stdin env; socket := env_socket env;
       input_buffer := make_buffer; server_buffer := make_buffer;
       input_pump := Reading; server_pump := Reading;
       orch := Fatal; trace := []; exit_status := None |} in
  match env_dial env with
  | DialFailed msg =>
      Fatalf Orchestrator
        ("Error occurred while connecting to address " ++ DQUOTE
           ++ destination t ++ DQUOTE ++ ": " ++ msg)
        (record Orchestrator [Dial (DialFailed msg)] w)
  | DialOk =>
      let payload := bytes_of (handshake c options) in
      let w := record Orchestrator [Dial DialOk] w in
      match env_handshake env with
      | WriteFailed n msg =>
          Fatalf Orchestrator ("Failed to send rlogin handshake: " ++ msg)
            (record Orchestrator [ConnWrite payload (WriteFailed n msg)] w)
      | WriteOk =>
          let w := record Orchestrator [ConnWrite payload WriteOk] w in
          match NewTicker 0 (responseTimeout t) with
          | None => leave Panicked 2 w
          | Some k =>
              set_orch
                (Selecting {| afterEOFMode := false; somethingRead := false;
                              closing := false; afterEOFResponseTicker := k |})
                w
          end
      end
  end.

(** [main] after the command line is read and the address resolved. *)
Definition session (c : Client) (options : CommandLine) (resolved : string)
    (env : Environment) : World :=
  ProcessData c (NewTelnetClient options resolved) options env.

(** ** Predicates on runs *)

Definition holds_request (w : World) : bool :=
  match orch w with
  | HoldingRequest _ _ => true
  | _ => false
  end.

Definition is_InputRead (l : Label) : bool :=
  match l with
  | InputRead => true
  | _ => false
  end.

(** Along [sched] from [w], the input pump never calls [Read] again while
    the orchestrator still holds a slice of the pump's buffer that it has
    not written yet. *)
Fixpoint handoff_respected (c : Client) (t : TelnetClient)
    (sched : list Label) (w : World) : bool :=
  match sched with
  | [] => true
  | l :: rest =>
      negb (is_InputRead l && holds_request w)
      && match step c t l w with
         | Some w' => handoff_respected c t rest w'
         | None => true
         end
  end.

(** [l1] is an initial segment of [l2]. *)
Definition is_prefix (l1 l2 : list byte) : Prop :=
  exists rest, l2 = (l1 ++ rest)%list.

(** The end-of-input signal has been taken by [select]. *)
Definition eof_processed (w : World) : Prop := input_pump w = Terminated.

Definition returned (w : World) : Prop :=
  exists why, orch w = Returned why.

(** ** Scenarios *)

(** The payload Scenario A of the specification expects: the configured
    name in the first field and an empty terminal-type field. *)
Definition scenario_A_expected : string :=
  NUL ++ "bob" ++ NUL ++ "[ABC]bob" ++ NUL ++ NUL.

(** A read that reports end of input. *)
Definition eof : ReadResult := {| rd_data := []; rd_err := ErrEOF |}.

(** A read that returns the bytes of [s] and a nil error. *)
Definition chunk (s : string) : ReadResult :=
  {| rd_data := bytes_of s; rd_err := ErrNil |}.

(** A read that fails with an error other than EOF. *)
Definition failed_read (msg : string) : ReadResult :=
  {| rd_data := []; rd_err := ErrOther msg |}.

(** The dial and the handshake write succeed; local input and the socket
    deliver [i] and [s]. *)
Definition environment (i s : list ReadResult) : Environment :=
  {| env_dial := DialOk; env_handshake := WriteOk;
     env_stdin := i; env_socket := s |}.

(** The configuration of the scenarios, with inactivity timeout [T]. *)
Definition scenario_options (T : Z) : CommandLine :=
  {| host := "example.com"; port := 2513; name := "bob"; tag := "ABC";
     xtrn := None; timeout := T |}.

Definition scenario_client (T : Z) : TelnetClient :=
  NewTelnetClient (scenario_options T) "example.com:2513".

(** The world in which the loop of client [c] starts. *)
Definition scenario (c : Client) (T : Z) (i s : list ReadResult) : World :=
  session c (scenario_options T) "example.com:2513" (environment i s).

(** Scenario C with the end of input 150ms into the session: nothing comes
    from the server, the timeout is 200ms. *)
Definition scenario_C_until_eof : list Label :=
  [Delay (150 * Millisecond); InputRead; InputHandoff].

Definition scenario_C_after_eof : list Label :=
  [Delay (50 * Millisecond); Tick].

(** Scenario D: end of input at instant 0, one chunk from the server at
    100ms, timeout 200ms. *)
Definition scenario_D_until_arrival : list Label :=
  [InputRead; InputHandoff; Delay (100 * Millisecond); ServerRead; ServerHandoff].

(** Scenario E: the server closes while local input still has data. *)
Definition scenario_E : list Label :=
  [InputRead; InputHandoff; RunRequest WriteOk; InputRead;
   ServerRead; ServerHandoff].

(** A schedule in which the input pump reads again before the orchestrator
    has written the slice it was handed. *)
Definition overlapping_schedule : list Label :=
  [InputRead; InputHandoff; InputRead; RunRequest WriteOk;
   InputHandoff; RunRequest WriteOk].

(** ** Shapes of traces and steps *)

(** What leaving [ProcessData] appends to the trace. *)
Definition unwinding (status : Z) : Trace :=
  [(Orchestrator, ConnClose);
   (Orchestrator, Log "Connection closed.");
   (Orchestrator, ProcessEnds status)].

Definition after_outcome (out : Outcome) : Trace :=
  match out with
  | Continue _ => []
  | Return _ => unwinding 0
  | Panic => unwinding 2
  end.

(** What a read of the input pump appends to the trace. *)
Definition input_read_effects (r : ReadResult) : Trace :=
  (InputPump, StdinRead r)
  :: match rd_err r with
     | ErrOther msg =>
         [(InputPump, Log ("Error reading input data: " ++ msg));
          (InputPump, ProcessEnds 1)]
     | _ => []
     end.

(** What a read of the server pump appends to the trace. *)
Definition server_read_effects (r : ReadResult) : Trace :=
  (ServerPump, ConnRead r)
  :: match rd_err r with
     | ErrNil => []
     | ErrEOF => [(ServerPump, Log "Server closed the connection.")]
     | ErrOther msg =>
         [(ServerPump,
           Log ("Error occurred while reading from server: " ++ msg))]
     end.

(** [ProcessData] is inside its loop. *)
Definition in_loop (k : Control) : bool :=
  match k with
  | Selecting _ | HoldingRequest _ _ | HoldingResponse _ _ => true
  | Returned _ | Panicked | Fatal => false
  end.

(** The loop variables [ProcessData] has in control state [k]. *)
Definition loop_vars (k : Control) : option LoopVars :=
  match k with
  | Selecting v | HoldingRequest v _ | HoldingResponse v _ => Some v
  | Returned _ | Panicked | Fatal => None
  end.

(** How often the deferred closure has run in control state [k]. *)
Definition unwound (k : Control) : nat :=
  match k with
  | Returned _ | Panicked => 1
  | Selecting _ | HoldingRequest _ _ | HoldingResponse _ _ | Fatal => 0
  end.

(** How one step from [w] to [w'] changes the clock, the trace and the
    control state of the orchestrator. *)
Inductive step_shape (c : Client) (t : TelnetClient) (w w' : World) : Prop :=
| shape_input_read r :
    trace w' = (trace w ++ input_read_effects r)%list ->
    orch w' = orch w ->
    now w' = now w ->
    step_shape c t w w'
| shape_server_read r :
    trace w' = (trace w ++ server_read_effects r)%list ->
    orch w' = orch w ->
    now w' = now w ->
    exit_status w' = None ->
    step_shape c t w w'
| shape_receive v n :
    trace w' = trace w ->
    orch w = Selecting v ->
    orch w' = HoldingRequest v n \/ orch w' = HoldingResponse v n ->
    now w' = now w ->
    exit_status w' = None ->
    step_shape c t w w'
| shape_case v0 v k x :
    w' = run_case c t v k x ->
    trace x = trace w ->
    now x = now w ->
    exit_status x = None ->
    loop_vars (orch w) = Some v0 ->
    v = v0
    \/ (k = CaseTick
        /\ v = set_ticker (rearm (afterEOFResponseTicker v0)) v0
        /\ now w = fires_at (afterEOFResponseTicker v0)) ->
    step_shape c t w w'
| shape_delay v d :
    trace w' = trace w ->
    orch w' = orch w ->
    orch w = Selecting v ->
    0 <= d ->
    now w + d <= fires_at (afterEOFResponseTicker v) ->
    now w' = now w + d ->
    exit_status w' = None ->
    step_shape c t w w'.

(** The connection has been closed as often as the deferred closure has
    run, always by the orchestrator; once [ProcessData] is outside its
    loop the process is over. *)
Definition closed_by_defer_only (w : World) : Prop :=
  closes (trace w) = unwound (orch w)
  /\ closes_by Orchestrator (trace w) = unwound (orch w)
  /\ closes_by InputPump (trace w) = 0%nat
  /\ closes_by ServerPump (trace w) = 0%nat
  /\ (in_loop (orch w) = false -> exit_status w <> None).

(** Whenever [ProcessData] is inside its loop, [closing] is set. *)
Definition closing_set (w : World) : Prop :=
  forall v, loop_vars (orch w) = Some v -> closing v = true.

(** Inside the loop, the ticker has the period [responseTimeout], which is
    positive, and its next tick lies between now and one period from now. *)
Definition ticker_on_time (t : TelnetClient) (w : World) : Prop :=
  forall v, loop_vars (orch w) = Some v ->
    let k := afterEOFResponseTicker v in
    0 < responseTimeout t
    /\ every k = responseTimeout t
    /\ now w <= fires_at k <= now w + responseTimeout t.

(** Inside the loop, [somethingRead] is set; and the loop has not been
    left through the timeout case. *)
Definition something_read_set (w : World) : Prop :=
  (forall v, loop_vars (orch w) = Some v -> somethingRead v = true)
  /\ orch w <> Returned InactivityTimeout.

(** In Scenario C with the end of input at 150ms, client [c] takes the
    end-of-input signal at 150ms and leaves its loop through the timeout
    case at 200ms. *)
Definition timeout_50ms_after_eof (c : Client) : Prop :=
  exists w_eof w_end,
    run c (scenario_client (200 * Millisecond)) scenario_C_until_eof
      (scenario c (200 * Millisecond) [eof] []) = Some w_eof
    /\ now w_eof = 150 * Millisecond
    /\ eof_processed w_eof
    /\ run c (scenario_client (200 * Millisecond)) scenario_C_after_eof w_eof
       = Some w_end
    /\ orch w_end = Returned InactivityTimeout
    /\ now w_end = 200 * Millisecond
    /\ now w_end - now w_eof < 200 * Millisecond.

(** The bytes the input pump has read with a nil error and that are still
    on their way: in the slice the pump is blocked sending, or in the slice
    the orchestrator holds and has not written yet. *)
Definition pending (w : World) : list byte :=
  match orch w, input_pump w with
  | HoldingRequest _ n, _ => firstn n (input_buffer w)
  | _, Sending n => firstn n (input_buffer w)
  | _, _ => []
  end.

(** The relay invariant: the connection has received [base] followed by
    [relayed]; while the process lives, what was read is what was relayed
    followed by what is pending; once it is over, what was relayed is an
    initial segment of what was read, and all of it if the end-of-input
    signal had been taken. *)
Definition fidelity (base : list byte) (w : World) : Prop :=
  exists relayed,
    sent_to_connection (trace w) = (base ++ relayed)%list
    /\ match exit_status w with
       | None =>
           read_from_stdin (trace w) = (relayed ++ pending w)%list
           /\ (holds_request w = true -> input_pump w = Reading)
       | Some _ =>
           is_prefix relayed (read_from_stdin (trace w))
           /\ (input_pump w = Terminated ->
               relayed = read_from_stdin (trace w))
       end.

(** What Scenario E leaves behind in client [c]: the session is over by
    remote disconnect, "abcd" was read from local input, and only "ab"
    followed the handshake on the connection. *)
Definition scenario_E_loses_input (c : Client) : Prop :=
  exists w,
    run c (scenario_client (200 * Millisecond)) scenario_E
      (scenario c (200 * Millisecond) [chunk "ab"; chunk "cd"] [eof]) = Some w
    /\ orch w = Returned RemoteDisconnect
    /\ read_from_stdin (trace w) = bytes_of "abcd"
    /\ sent_to_connection (trace w)
       = (bytes_of (handshake c (scenario_options (200 * Millisecond)))
          ++ bytes_of "ab")%list.

(** Two chunks are read and relayed one after the other, then local input
    ends. *)
Definition relay_two_chunks : list Label :=
  [InputRead; InputHandoff; RunRequest WriteOk;
   InputRead; InputHandoff; RunRequest WriteOk;
   InputRead; InputHandoff].

(** A session of client [c] under [sched] ends by [return] for the reason
    [why], with the connection closed exactly once. *)
Definition ends_closed_once (c : Client) (i s : list ReadResult)
    (sched : list Label) (why : Reason) : Prop :=
  exists w,
    run c (scenario_client (200 * Millisecond)) sched
      (scenario c (200 * Millisecond) i s) = Some w
    /\ orch w = Returned why
    /\ closes (trace w) = 1%nat
    /\ closes_by Orchestrator (trace w) = 1%nat.

(** * The rest of the program *)

From Stdlib Require Import DecimalString DecimalN.

(** ** The address: [createTCPAddr] *)

(** [fmt.Sprintf("%d", n)] for a [uint64], which is never negative. *)
Definition Sprintf_d (n : Z) : string :=
  NilEmpty.string_of_uint (N.to_uint (Z.to_N n)).

(** [createTCPAddr]: the host, a colon, the port in decimal. *)
Definition createTCPAddr (options : CommandLine) : string :=
  host options ++ ":" ++ Sprintf_d (port options).

(** The character [x] does not occur in [s]. *)
Fixpoint free_of (x : ascii) (s : string) : Prop :=
  match s with
  | EmptyString => True
  | String y rest => x <> y /\ free_of x rest
  end.

(** How often the character [x] occurs in [s]. *)
Fixpoint occurrences (x : ascii) (s : string) : nat :=
  match s with
  | EmptyString => 0
  | String y rest =>
      ((if Ascii.eqb x y then 1 else 0) + occurrences x rest)%nat
  end.

(** The fields of a configuration are free of NUL, as the handshake
    format needs. *)
Definition NUL_free (options : CommandLine) : Prop :=
  free_of Ascii.zero (name options)
  /\ free_of Ascii.zero (tag options)
  /\ (forall code, xtrn options = Some code -> free_of Ascii.zero code).

(** ** From the socket to local output *)

(** All bytes the server pump obtained from reads of the socket that
    returned a nil error, in order. *)
Fixpoint read_from_socket (tr : Trace) : list byte :=
  match tr with
  | [] => []
  | (ServerPump, ConnRead r) :: rest =>
      match rd_err r with
      | ErrNil => (rd_data r ++ read_from_socket rest)%list
      | _ => read_from_socket rest
      end
  | _ :: rest => read_from_socket rest
  end.

(** All bytes passed to [outputData.Write], call after call.  The code
    discards what the call returns, so its course does not depend on it. *)
Definition handed_to_output (tr : Trace) : list byte :=
  List.concat (written_to_output tr).

Definition holds_response (w : World) : bool :=
  match orch w with
  | HoldingResponse _ _ => true
  | _ => false
  end.

Definition is_ServerRead (l : Label) : bool :=
  match l with
  | ServerRead => true
  | _ => false
  end.

(** Along [sched] from [w], the server pump never calls [Read] again while
    the orchestrator still holds a slice of the pump's buffer that it has
    not passed to [outputData.Write] yet. *)
Fixpoint response_handoff_respected (c : Client) (t : TelnetClient)
    (sched : list Label) (w : World) : bool :=
  match sched with
  | [] => true
  | l :: rest =>
      negb (is_ServerRead l && holds_response w)
      && match step c t l w with
         | Some w' => response_handoff_respected c t rest w'
         | None => true
         end
  end.

(** The bytes the server pump has read with a nil error and that have not
    been passed to [outputData.Write] yet. *)
Definition pending_response (w : World) : list byte :=
  match orch w, server_pump w with
  | HoldingResponse _ n, _ => firstn n (server_buffer w)
  | _, Sending n => firstn n (server_buffer w)
  | _, _ => []
  end.

(** The invariant of the relay towards local output, the mirror image of
    [fidelity]. *)
Definition output_fidelity (w : World) : Prop :=
  match exit_status w with
  | None =>
      read_from_socket (trace w)
      = (handed_to_output (trace w) ++ pending_response w)%list
      /\ (holds_response w = true -> server_pump w = Reading)
  | Some _ =>
      is_prefix (handed_to_output (trace w)) (read_from_socket (trace w))
      /\ (server_pump w = Terminated ->
          handed_to_output (trace w) = read_from_socket (trace w))
  end.

(** The disconnect signal has been taken by [select]. *)
Definition disconnect_processed (w : World) : Prop :=
  server_pump w = Terminated.

(** ** After the end of input *)

(** Once the input pump is gone the orchestrator holds no request; in the
    flag-based client [closing] is only ever set together with the end of
    the input pump; and the loop has not been left through the guard of
    the request case. *)
Definition input_side_settled (c : Client) (w : World) : Prop :=
  (input_pump w = Terminated -> holds_request w = false)
  /\ (forall v, loop_vars (orch w) = Some v ->
        (c = Kingpin -> closing v = false)
        /\ (closing v = true -> input_pump w = Terminated))
  /\ orch w <> Returned ClosingStopWrites.

(** Something has been written to local output only if [somethingRead] is
    set and the loop has not been left through the timeout case. *)
Definition output_implies_something_read (w : World) : Prop :=
  written_to_output (trace w) <> [] -> something_read_set w.

(** In the flag-based client [afterEOFMode] and [closing] hold the same
    value whenever [ProcessData] is inside its loop. *)
Definition flag_modes_agree (w : World) : Prop :=
  forall v, loop_vars (orch w) = Some v -> afterEOFMode v = closing v.

(** ** The steps, one by one *)

(** The ten ways in which a step from [w] can happen, with the world it
    leads to. *)
Inductive step_view (c : Client) (t : TelnetClient) (w : World)
    : Label -> World -> Prop :=
| view_input_read r rest :
    input_pump w = Reading -> stdin w = r :: rest ->
    step_view c t w InputRead (readInputData_read r rest w)
| view_request_received n v :
    input_pump w = Sending n -> orch w = Selecting v ->
    step_view c t w InputHandoff
      (set_orch (HoldingRequest v n) (set_input_pump Reading w))
| view_done v :
    input_pump w = Signalling -> orch w = Selecting v ->
    step_view c t w InputHandoff
      (run_case c t v CaseDone (set_input_pump Terminated w))
| view_request r v n :
    orch w = HoldingRequest v n ->
    step_view c t w (RunRequest r)
      (run_case c t v (CaseRequest (firstn n (input_buffer w)) r) w)
| view_server_read r rest :
    server_pump w = Reading -> socket w = r :: rest ->
    step_view c t w ServerRead (readServerData_read r rest w)
| view_response_received n v :
    server_pump w = Sending n -> orch w = Selecting v ->
    step_view c t w ServerHandoff
      (set_orch (HoldingResponse v n) (set_server_pump Reading w))
| view_disconnect v :
    server_pump w = Signalling -> orch w = Selecting v ->
    step_view c t w ServerHandoff
      (run_case c t v CaseDisconnect (set_server_pump Terminated w))
| view_response v n :
    orch w = HoldingResponse v n ->
    step_view c t w RunResponse
      (run_case c t v (CaseResponse (firstn n (server_buffer w))) w)
| view_tick v :
    orch w = Selecting v ->
    now w = fires_at (afterEOFResponseTicker v) ->
    step_view c t w Tick
      (run_case c t (set_ticker (rearm (afterEOFResponseTicker v)) v)
         CaseTick w)
| view_delay v d :
    orch w = Selecting v ->
    0 <= d ->
    now w + d <= fires_at (afterEOFResponseTicker v) ->
    step_view c t w (Delay d) (set_now (now w + d) w).

(** ** More scenarios *)

(** Two chunks arrive from the server and are relayed one after the other,
    then the server closes. *)
Definition relay_two_responses : list Label :=
  [ServerRead; ServerHandoff; RunResponse;
   ServerRead; ServerHandoff; RunResponse;
   ServerRead; ServerHandoff].

(** One chunk arrives from the server and is relayed. *)
Definition relay_one_response : list Label :=
  [ServerRead; ServerHandoff; RunResponse].

(** A second configuration with the identity fields of Scenario A and a
    door code, for another server and timeout. *)
Definition scenario_A_elsewhere : CommandLine :=
  {| host := "10.0.0.7"; port := 23; name := "bob"; tag := "ABC";
     xtrn := Some "MRC"; timeout := 5000 * Millisecond |}.

(** * Properties of the handshake *)

Section Handshake.

Lemma append_cancel_l (a b c : string) : a ++ b = a ++ c -> b = c.
Proof.
  induction a as [|x a IH]; simpl; intros H.
  - exact H.
  - apply IH. now inversion H.
Qed.

Lemma append_empty_r (a : string) : a ++ "" = a.
Proof. induction a as [|x a IH]; simpl; [reflexivity | now rewrite IH]. Qed.

Lemma door_code_Some (options : CommandLine) (code : string) :
  door_code options = Some code <-> xtrn options = Some code /\ code <> "".
Proof.
  unfold door_code. destruct (xtrn options) as [x|].
  - destruct (String.eqb_spec x "") as [E|E]; split.
    + discriminate.
    + intros [H1 H2]. inversion H1. subst. contradiction.
    + intros H. inversion H. subst. auto.
    + intros [H1 _]. exact H1.
  - split; [discriminate | intros [H _]; discriminate].
Qed.

Lemma door_code_None (options : CommandLine) :
  door_code options = None <-> xtrn options = None \/ xtrn options = Some "".
Proof.
  unfold door_code. destruct (xtrn options) as [x|].
  - destruct (String.eqb_spec x "") as [E|E]; split; intros H.
    + subst. now right.
    + reflexivity.
    + discriminate.
    + destruct H as [H|H]; [discriminate | inversion H; contradiction].
  - split; auto.
Qed.

Lemma door_code_given_iff (options : CommandLine) :
  door_code_given options <-> exists code, door_code options = Some code.
Proof.
  unfold door_code_given. split; intros [code H]; exists code;
    now apply door_code_Some.
Qed.

(** C1, as the specification states it, fails: in Scenario A neither
    client sends the configured name "bob" as the first field, whether
    the door code is absent or empty. *)
Lemma scenario_A_first_field_is_not_the_name :
  KingpinClient.handshake (scenario_A None) <> scenario_A_expected
  /\ KingpinClient.handshake (scenario_A (Some "")) <> scenario_A_expected
  /\ FlagClient.handshake (scenario_A None) <> scenario_A_expected
  /\ FlagClient.handshake (scenario_A (Some "")) <> scenario_A_expected.
Proof. repeat split; vm_compute; discriminate. Qed.

(** C1 (amended): for name "bob", tag "ABC" and an absent or empty door
    code, the first field is the client's fixed local user name, not the
    configured one.  The flag-based client sends NUL, NUL, "[ABC]bob",
    NUL, NUL; the kingpin-based client sends NUL, "local_username", NUL,
    "[ABC]bob", NUL. *)
Theorem handshake_scenario_A (h : string) (p T : Z) :
  let options x :=
    {| host := h; port := p; name := "bob"; tag := "ABC";
       xtrn := x; timeout := T |} in
  FlagClient.handshake (options None) = NUL ++ NUL ++ "[ABC]bob" ++ NUL ++ NUL
  /\ FlagClient.handshake (options (Some ""))
     = NUL ++ NUL ++ "[ABC]bob" ++ NUL ++ NUL
  /\ KingpinClient.handshake (options None)
     = NUL ++ "local_username" ++ NUL ++ "[ABC]bob" ++ NUL
  /\ KingpinClient.handshake (options (Some ""))
     = NUL ++ "local_username" ++ NUL ++ "[ABC]bob" ++ NUL.
Proof. repeat split. Qed.

(** C6: in both clients the payload carries an xtrn field, right after
    the fixed fields, exactly when the door code is present and
    non-empty, and the field is then "xtrn=" followed by that code and
    NUL; an absent and an empty door code give the same payload. *)
Theorem xtrn_field_iff_door_code (options : CommandLine) :
  (has_xtrn_field KingpinClient.localUsername options
     (KingpinClient.handshake options) <-> door_code_given options)
  /\ (has_xtrn_field FlagClient.localUsername options
        (FlagClient.handshake options) <-> door_code_given options)
  /\ (forall code, xtrn options = Some code -> code <> "" ->
        KingpinClient.handshake options
        = fixed_fields KingpinClient.localUsername options
            ++ "xtrn=" ++ code ++ NUL
        /\ FlagClient.handshake options
           = fixed_fields FlagClient.localUsername options
               ++ "xtrn=" ++ code ++ NUL)
  /\ (forall h p n g T,
        let o x := {| host := h; port := p; name := n; tag := g;
                      xtrn := x; timeout := T |} in
        KingpinClient.handshake (o None) = KingpinClient.handshake (o (Some ""))
        /\ FlagClient.handshake (o None) = FlagClient.handshake (o (Some ""))).
Proof.
  split; [|split; [|split]].
  - rewrite door_code_given_iff.
    unfold has_xtrn_field, KingpinClient.handshake, fixed_fields.
    destruct (door_code options) as [code|]; split.
    + intros _. now exists code.
    + intros _. now exists code.
    + intros [code H]. rewrite <- (append_empty_r (Sprintf_handshake _ _ _)) in H at 1.
      apply append_cancel_l in H. discriminate.
    + intros [code H]. discriminate.
  - rewrite door_code_given_iff.
    unfold has_xtrn_field, FlagClient.handshake, fixed_fields.
    destruct (door_code options) as [code|]; split.
    + intros _. now exists code.
    + intros _. now exists code.
    + intros [code H]. apply append_cancel_l in H. discriminate.
    + intros [code H]. discriminate.
  - intros code H1 H2.
    assert (H : door_code options = Some code).
    { apply door_code_Some. split; assumption. }
    unfold KingpinClient.handshake, FlagClient.handshake. rewrite H.
    split; reflexivity.
  - intros. split; reflexivity.
Qed.

Lemma xtrn_field_iff_door_code_witness :
  xtrn (scenario_A (Some "MRC")) = Some "MRC"
  /\ "MRC" <> ""
  /\ FlagClient.handshake (scenario_A (Some "MRC"))
     = NUL ++ NUL ++ "[ABC]bob" ++ NUL ++ "xtrn=MRC" ++ NUL
  /\ KingpinClient.handshake (scenario_A (Some "MRC"))
     = NUL ++ "local_username" ++ NUL ++ "[ABC]bob" ++ NUL ++ "xtrn=MRC" ++ NUL.
Proof.
  assert (H : "MRC" <> "") by discriminate.
  split; [reflexivity|]. split; [exact H|].
  destruct (xtrn_field_iff_door_code (scenario_A (Some "MRC")))
    as (_ & _ & E & _).
  destruct (E "MRC" eq_refl H) as [E1 E2].
  split; [rewrite E2 | rewrite E1]; reflexivity.
Defined.

(** C9: with an absent or empty door code the kingpin-based client sends
    its placeholder as local user name and stops after the fixed fields,
    the flag-based client sends an empty local user name and one more
    NUL; the two payloads differ. *)
Theorem variants_differ_without_door_code (options : CommandLine) :
  xtrn options = None \/ xtrn options = Some "" ->
  KingpinClient.handshake options
    = NUL ++ "local_username" ++ NUL ++ "[" ++ tag options ++ "]"
        ++ name options ++ NUL
  /\ FlagClient.handshake options
     = NUL ++ "" ++ NUL ++ "[" ++ tag options ++ "]" ++ name options
         ++ NUL ++ NUL
  /\ KingpinClient.handshake options <> FlagClient.handshake options.
Proof.
  intros H. apply door_code_None in H.
  unfold KingpinClient.handshake, FlagClient.handshake. rewrite H.
  split; [|split].
  - reflexivity.
  - unfold Sprintf_handshake, FlagClient.localUsername. simpl.
    f_equal. f_equal. f_equal.
    induction (tag options) as [|x s IH]; simpl.
    + f_equal. induction (name options) as [|y s' IH']; simpl;
        [reflexivity | now rewrite IH'].
    + now rewrite <- IH.
  - discriminate.
Qed.

Lemma variants_differ_without_door_code_witness :
  (xtrn (scenario_A None) = None \/ xtrn (scenario_A None) = Some "")
  /\ KingpinClient.handshake (scenario_A None)
     <> FlagClient.handshake (scenario_A None).
Proof.
  split.
  - now left.
  - apply (variants_differ_without_door_code (scenario_A None)). now left.
Defined.

End Handshake.

(** * Properties of sessions *)

Local Open Scope list_scope.

Section Traces.

Lemma sent_to_connection_app (tr1 tr2 : Trace) :
  sent_to_connection (tr1 ++ tr2)
  = sent_to_connection tr1 ++ sent_to_connection tr2.
Proof.
  induction tr1 as [|[a e] tr1 IH]; simpl; [reflexivity|].
  destruct a, e; simpl; rewrite ?IH, ?app_assoc; reflexivity.
Qed.

Lemma read_from_stdin_app (tr1 tr2 : Trace) :
  read_from_stdin (tr1 ++ tr2) = read_from_stdin tr1 ++ read_from_stdin tr2.
Proof.
  induction tr1 as [|[a e] tr1 IH]; simpl; [reflexivity|].
  destruct a, e; simpl; rewrite ?IH; try reflexivity.
  destruct (rd_err r); rewrite ?app_assoc; reflexivity.
Qed.

Lemma written_to_output_app (tr1 tr2 : Trace) :
  written_to_output (tr1 ++ tr2)
  = written_to_output tr1 ++ written_to_output tr2.
Proof.
  induction tr1 as [|[a e] tr1 IH]; simpl; [reflexivity|].
  destruct e; simpl; rewrite ?IH; reflexivity.
Qed.

Lemma closes_app (tr1 tr2 : Trace) :
  closes (tr1 ++ tr2) = (closes tr1 + closes tr2)%nat.
Proof. unfold closes. now rewrite filter_app, length_app. Qed.

Lemma closes_by_app (a : Actor) (tr1 tr2 : Trace) :
  closes_by a (tr1 ++ tr2) = (closes_by a tr1 + closes_by a tr2)%nat.
Proof. unfold closes_by. now rewrite filter_app, length_app. Qed.

End Traces.

(** What the two loops have in common, case by case. *)
Section Loop.

Variable c : Client.
Variable t : TelnetClient.

Lemma select_case_Done (x : Z) (v : LoopVars) :
  exists v', select_case c t x v CaseDone = ([], Continue v')
             /\ afterEOFMode v' = true
             /\ somethingRead v' = somethingRead v
             /\ afterEOFResponseTicker v' = afterEOFResponseTicker v
             /\ (c = Flag -> closing v' = true).
Proof.
  destruct c; simpl; eexists; (split; [reflexivity|]); simpl; auto.
  repeat split. discriminate.
Qed.

Lemma select_case_Tick (x : Z) (v : LoopVars) :
  select_case c t x v CaseTick
  = if afterEOFMode v && negb (somethingRead v)
    then ([Log "Connection timeout with no response received."%string],
          Return InactivityTimeout)
    else ([], Continue v).
Proof. destruct c; reflexivity. Qed.

(** No case body closes the connection. *)
Lemma select_case_never_closes (x : Z) (v : LoopVars) (k : SelectCase) :
  closes (map (pair Orchestrator) (fst (select_case c t x v k))) = 0%nat.
Proof.
  destruct c, k; simpl; unfold write_request, relay_response; simpl;
    repeat match goal with
           | |- context [match ?r with _ => _ end] => destruct r; simpl
           end; reflexivity.
Qed.

End Loop.

Section Fatal.

Variable c : Client.
Variable t : TelnetClient.

(** Nothing happens once the process is over. *)
Lemma step_after_exit (l : Label) (w : World) (status : Z) :
  exit_status w = Some status -> step c t l w = None.
Proof. intros H. unfold step. now rewrite H. Qed.

Lemma run_after_exit (sched : list Label) (w w' : World) (status : Z) :
  exit_status w = Some status -> run c t sched w = Some w' -> w' = w.
Proof.
  intros H. destruct sched as [|l rest]; simpl.
  - congruence.
  - now rewrite (step_after_exit l w status H).
Qed.

End Fatal.

(** C7 at a failing input: the handshake write fails with "broken pipe".
    The specification wants the connection closed; [connection.Close()] is
    never called, in either client. *)
Lemma failed_handshake_leaves_connection_unclosed :
  let env := {| env_dial := DialOk;
                env_handshake := WriteFailed 0 "broken pipe";
                env_stdin := []; env_socket := [] |} in
  let o := scenario_options (200 * Millisecond) in
  closes (trace (session Kingpin o "example.com:2513" env)) = 0%nat
  /\ closes (trace (session Flag o "example.com:2513" env)) = 0%nat.
Proof. split; reflexivity. Qed.

(** C7, what the code does: when the handshake write fails, the failure is
    logged and [log.Fatalf] ends the process at once with status 1; the
    loop is never entered and nothing can happen afterwards.  The closure
    deferred right after the dial has not run: the trace holds no
    [ConnClose], against the specification's "connection is closed". *)
Theorem failed_handshake_is_fatal (c : Client) (t : TelnetClient)
    (options : CommandLine) (env : Environment) (n : nat) (msg : string) :
  env_dial env = DialOk ->
  env_handshake env = WriteFailed n msg ->
  let w := ProcessData c t options env in
  trace w
  = [(Orchestrator, Dial DialOk);
     (Orchestrator,
      ConnWrite (bytes_of (handshake c options)) (WriteFailed n msg));
     (Orchestrator, Log ("Failed to send rlogin handshake: " ++ msg)%string);
     (Orchestrator, ProcessEnds 1)]
  /\ exit_status w = Some 1
  /\ orch w = Fatal
  /\ closes (trace w) = 0%nat
  /\ (forall l, step c t l w = None)
  /\ (forall sched w', run c t sched w = Some w' -> w' = w).
Proof.
  intros Hd Hh w. subst w. unfold ProcessData. rewrite Hd, Hh. simpl.
  do 4 (split; [reflexivity|]). split.
  - intros l. now apply (step_after_exit c t l _ 1).
  - intros sched w'. now apply (run_after_exit c t sched _ w' 1).
Qed.

Lemma failed_handshake_is_fatal_witness :
  let env := {| env_dial := DialOk;
                env_handshake := WriteFailed 3 "connection reset by peer";
                env_stdin := [chunk "hello"]; env_socket := [] |} in
  let w := ProcessData Flag (scenario_client (200 * Millisecond))
             (scenario_options (200 * Millisecond)) env in
  exit_status w = Some 1 /\ orch w = Fatal /\ closes (trace w) = 0%nat.
Proof.
  intros env w.
  pose proof (failed_handshake_is_fatal Flag
                (scenario_client (200 * Millisecond))
                (scenario_options (200 * Millisecond)) env 3
                "connection reset by peer" eq_refl eq_refl) as H.
  destruct H as (_ & H1 & H2 & H3 & _). auto.
Defined.

(** C8, as the specification states it, fails: a read of local input that
    fails with an error other than EOF ends the whole process, with status
    1, from the input pump; the orchestrator is still in its loop and the
    end-of-input signal has not been sent. *)
Lemma failed_input_read_ends_process :
  exists w v,
    run Kingpin (scenario_client (200 * Millisecond)) [InputRead]
      (scenario Kingpin (200 * Millisecond)
         [failed_read "input/output error"] [])
    = Some w
    /\ exit_status w = Some 1
    /\ last (trace w) (Orchestrator, ConnClose) = (InputPump, ProcessEnds 1)
    /\ orch w = Selecting v
    /\ input_pump w <> Terminated.
Proof.
  eexists. eexists. split; [vm_compute; reflexivity|].
  repeat split. discriminate.
Qed.

(** C8 (amended): a read of local input that fails with an error other than
    EOF is logged by the input pump, which then ends the whole process with
    status 1: no end-of-input signal is sent, the orchestrator makes no
    transition, and nothing can happen afterwards. *)
Theorem failed_input_read_is_fatal (c : Client) (t : TelnetClient)
    (w : World) (r : ReadResult) (rest : list ReadResult) (msg : string) :
  exit_status w = None ->
  input_pump w = Reading ->
  stdin w = r :: rest ->
  rd_err r = ErrOther msg ->
  exists w',
    step c t InputRead w = Some w'
    /\ trace w'
       = trace w
         ++ [(InputPump, StdinRead r);
             (InputPump, Log ("Error reading input data: " ++ msg)%string);
             (InputPump, ProcessEnds 1)]
    /\ exit_status w' = Some 1
    /\ orch w' = orch w
    /\ input_pump w' = Reading
    /\ (forall l, step c t l w' = None).
Proof.
  intros He Hp Hs Hr. unfold step. rewrite He, Hp, Hs.
  eexists. split; [reflexivity|].
  unfold readInputData_read. rewrite Hr. simpl.
  rewrite <- !app_assoc. simpl.
  do 4 (split; [reflexivity|]).
  intros l. reflexivity.
Qed.

Lemma failed_input_read_is_fatal_witness :
  let w := scenario Flag (200 * Millisecond) [failed_read "input/output error"] [] in
  exists w',
    step Flag (scenario_client (200 * Millisecond)) InputRead w = Some w'
    /\ exit_status w' = Some 1
    /\ orch w' = orch w.
Proof.
  intros w.
  destruct (failed_input_read_is_fatal Flag (scenario_client (200 * Millisecond))
              w (failed_read "input/output error") [] "input/output error"
              eq_refl eq_refl eq_refl eq_refl)
    as (w' & H1 & _ & H2 & H3 & _).
  exists w'. auto.
Defined.

(** * The steps of a session, field by field *)

Section Steps.

Variable c : Client.
Variable t : TelnetClient.

Lemma run_case_trace (v : LoopVars) (k : SelectCase) (w : World) :
  trace (run_case c t v k w)
  = trace w
    ++ map (pair Orchestrator) (fst (select_case c t (now w) v k))
    ++ after_outcome (snd (select_case c t (now w) v k)).
Proof.
  unfold run_case. destruct (select_case c t (now w) v k) as [es out].
  destruct out; simpl; rewrite <- ?app_assoc; simpl;
    rewrite ?app_nil_r; reflexivity.
Qed.

Lemma run_case_orch (v : LoopVars) (k : SelectCase) (w : World) :
  orch (run_case c t v k w)
  = match snd (select_case c t (now w) v k) with
    | Continue v' => Selecting v'
    | Return why => Returned why
    | Panic => Panicked
    end.
Proof.
  unfold run_case. destruct (select_case c t (now w) v k) as [es out].
  destruct out; reflexivity.
Qed.

Lemma run_case_exit_status (v : LoopVars) (k : SelectCase) (w : World) :
  exit_status (run_case c t v k w)
  = match snd (select_case c t (now w) v k) with
    | Continue _ => exit_status w
    | Return _ => Some 0
    | Panic => Some 2
    end.
Proof.
  unfold run_case. destruct (select_case c t (now w) v k) as [es out].
  destruct out; reflexivity.
Qed.

Lemma run_case_rest (v : LoopVars) (k : SelectCase) (w : World) :
  now (run_case c t v k w) = now w
  /\ stdin (run_case c t v k w) = stdin w
  /\ socket (run_case c t v k w) = socket w
  /\ input_buffer (run_case c t v k w) = input_buffer w
  /\ server_buffer (run_case c t v k w) = server_buffer w
  /\ input_pump (run_case c t v k w) = input_pump w
  /\ server_pump (run_case c t v k w) = server_pump w.
Proof.
  unfold run_case. destruct (select_case c t (now w) v k) as [es out].
  destruct out; repeat split.
Qed.

Lemma readInputData_read_orch r rest w :
  orch (readInputData_read r rest w) = orch w.
Proof. unfold readInputData_read. destruct (rd_err r); reflexivity. Qed.

Lemma readServerData_read_orch r rest w :
  orch (readServerData_read r rest w) = orch w.
Proof. unfold readServerData_read. destruct (rd_err r); reflexivity. Qed.

Lemma readServerData_read_exit_status r rest w :
  exit_status (readServerData_read r rest w) = exit_status w.
Proof. unfold readServerData_read. destruct (rd_err r); reflexivity. Qed.

Lemma readInputData_read_trace r rest w :
  trace (readInputData_read r rest w) = trace w ++ input_read_effects r.
Proof.
  unfold readInputData_read, input_read_effects.
  destruct (rd_err r); simpl; rewrite <- ?app_assoc; reflexivity.
Qed.

Lemma readServerData_read_trace r rest w :
  trace (readServerData_read r rest w) = trace w ++ server_read_effects r.
Proof.
  unfold readServerData_read, server_read_effects.
  destruct (rd_err r); simpl; rewrite <- ?app_assoc; reflexivity.
Qed.

Lemma step_has_shape (l : Label) (w w' : World) :
  step c t l w = Some w' -> step_shape c t w w'.
Proof.
  unfold step. destruct (exit_status w) eqn:He; [discriminate|].
  destruct l.
  - destruct (input_pump w); try discriminate.
    destruct (stdin w) as [|r rest]; [discriminate|].
    intros H. inversion H; subst; clear H.
    apply shape_input_read with (r := r).
    + apply readInputData_read_trace.
    + apply readInputData_read_orch.
    + unfold readInputData_read. destruct (rd_err r); reflexivity.
  - destruct (input_pump w) eqn:Hp; try discriminate;
      destruct (orch w) eqn:Ho; try discriminate;
      intros H; inversion H; subst; clear H.
    + apply shape_receive with (v := v) (n := n); simpl; auto.
    + eapply shape_case with (v0 := v);
        [reflexivity| | | | |left; reflexivity]; simpl; auto; now rewrite Ho.
  - destruct (orch w) eqn:Ho; try discriminate.
    intros H; inversion H; subst; clear H.
    eapply shape_case with (v0 := v);
      [reflexivity| | | | |left; reflexivity]; simpl; auto; now rewrite Ho.
  - destruct (server_pump w); try discriminate.
    destruct (socket w) as [|r rest]; [discriminate|].
    intros H. inversion H; subst; clear H.
    apply shape_server_read with (r := r).
    + apply readServerData_read_trace.
    + apply readServerData_read_orch.
    + unfold readServerData_read. destruct (rd_err r); reflexivity.
    + now rewrite readServerData_read_exit_status.
  - destruct (server_pump w) eqn:Hp; try discriminate;
      destruct (orch w) eqn:Ho; try discriminate;
      intros H; inversion H; subst; clear H.
    + apply shape_receive with (v := v) (n := n); simpl; auto.
    + eapply shape_case with (v0 := v);
        [reflexivity| | | | |left; reflexivity]; simpl; auto; now rewrite Ho.
  - destruct (orch w) eqn:Ho; try discriminate.
    intros H; inversion H; subst; clear H.
    eapply shape_case with (v0 := v);
      [reflexivity| | | | |left; reflexivity]; simpl; auto; now rewrite Ho.
  - destruct (orch w) eqn:Ho; try discriminate.
    destruct (now w =? fires_at (afterEOFResponseTicker v)) eqn:Hf;
      [|discriminate].
    intros H; inversion H; subst; clear H.
    apply Z.eqb_eq in Hf.
    eapply shape_case with (v0 := v);
      [reflexivity| | | | |right; repeat split]; simpl; auto; now rewrite Ho.
  - destruct (orch w) eqn:Ho; try discriminate.
    destruct ((0 <=? d) && (now w + d <=? fires_at (afterEOFResponseTicker v)))
      eqn:Hd; [|discriminate].
    intros H; inversion H; subst; clear H.
    apply andb_true_iff in Hd. destruct Hd as [Hd1 Hd2].
    apply Z.leb_le in Hd1, Hd2.
    apply shape_delay with (v := v) (d := d); simpl; auto.
Qed.

End Steps.

(** * Who closes the connection *)

Section Closing.

Variable c : Client.
Variable t : TelnetClient.

Lemma step_needs_live_process (l : Label) (w w' : World) :
  step c t l w = Some w' -> exit_status w = None.
Proof.
  unfold step. destruct (exit_status w); [discriminate | reflexivity].
Qed.

Lemma orchestrator_effects_closes_by (es : list Effect) :
  closes_by Orchestrator (map (pair Orchestrator) es)
  = closes (map (pair Orchestrator) es)
  /\ closes_by InputPump (map (pair Orchestrator) es) = 0%nat
  /\ closes_by ServerPump (map (pair Orchestrator) es) = 0%nat.
Proof.
  unfold closes_by, closes.
  induction es as [|e es (IH1 & IH2 & IH3)]; simpl; [auto|].
  destruct e; simpl; auto.
Qed.

Lemma input_read_effects_no_close (r : ReadResult) (a : Actor) :
  closes (input_read_effects r) = 0%nat
  /\ closes_by a (input_read_effects r) = 0%nat.
Proof.
  unfold input_read_effects, closes, closes_by.
  destruct (rd_err r), a; simpl; auto.
Qed.

Lemma server_read_effects_no_close (r : ReadResult) (a : Actor) :
  closes (server_read_effects r) = 0%nat
  /\ closes_by a (server_read_effects r) = 0%nat.
Proof.
  unfold server_read_effects, closes, closes_by.
  destruct (rd_err r), a; simpl; auto.
Qed.

Lemma after_outcome_closes (out : Outcome) :
  closes (after_outcome out)
  = match out with Continue _ => 0 | _ => 1 end%nat
  /\ closes_by Orchestrator (after_outcome out) = closes (after_outcome out)
  /\ closes_by InputPump (after_outcome out) = 0%nat
  /\ closes_by ServerPump (after_outcome out) = 0%nat.
Proof. destruct out; repeat split. Qed.

Lemma start_closed_by_defer_only (options : CommandLine) (env : Environment) :
  closed_by_defer_only (ProcessData c t options env).
Proof.
  unfold ProcessData, closed_by_defer_only.
  destruct (env_dial env); [destruct (env_handshake env)|];
    [destruct (NewTicker 0 (responseTimeout t))| |]; simpl;
    repeat split; try discriminate.
Qed.

Lemma step_closed_by_defer_only (l : Label) (w w' : World) :
  closed_by_defer_only w -> step c t l w = Some w' -> closed_by_defer_only w'.
Proof.
  intros (J1 & J2 & J3 & J4 & J5) Hs.
  pose proof (step_needs_live_process l w w' Hs) as Hlive.
  assert (Hin : in_loop (orch w) = true).
  { destruct (in_loop (orch w)) eqn:E; [reflexivity|].
    exfalso. now apply J5. }
  assert (Hz : unwound (orch w) = 0%nat).
  { destruct (orch w); simpl in *; auto; discriminate. }
  rewrite Hz in J1, J2.
  unfold closed_by_defer_only.
  destruct (step_has_shape c t l w w' Hs)
    as [r Ht Ho _ | r Ht Ho _ He | v n Ht Ho Ho' _ He
        | v0 v k x Hw Ht Hn He _ _ | v d Ht Ho _ _ _ _ He].
  - rewrite Ht, Ho, !closes_app, !closes_by_app, Hz, Hin, J1, J2, J3, J4.
    destruct (input_read_effects_no_close r Orchestrator) as [-> ->].
    destruct (input_read_effects_no_close r InputPump) as [_ ->].
    destruct (input_read_effects_no_close r ServerPump) as [_ ->].
    repeat split; discriminate.
  - rewrite Ht, Ho, !closes_app, !closes_by_app, Hz, Hin, J1, J2, J3, J4.
    destruct (server_read_effects_no_close r Orchestrator) as [-> ->].
    destruct (server_read_effects_no_close r InputPump) as [_ ->].
    destruct (server_read_effects_no_close r ServerPump) as [_ ->].
    repeat split; discriminate.
  - rewrite Ht, J1, J2, J3, J4.
    destruct Ho' as [-> | ->]; simpl; repeat split; discriminate.
  - subst w'. rewrite run_case_trace, run_case_orch, run_case_exit_status.
    rewrite Ht, !closes_app, !closes_by_app, J1, J2, J3, J4.
    destruct (orchestrator_effects_closes_by
                (fst (select_case c t (now x) v k))) as (-> & -> & ->).
    rewrite select_case_never_closes.
    destruct (after_outcome_closes (snd (select_case c t (now x) v k)))
      as (E1 & -> & -> & ->).
    rewrite E1.
    destruct (snd (select_case c t (now x) v k)); simpl;
      repeat split; discriminate.
  - rewrite Ht, Ho, Hz, Hin, J1, J2, J3, J4. repeat split. discriminate.
Qed.

Lemma run_closed_by_defer_only (sched : list Label) (w w' : World) :
  closed_by_defer_only w -> run c t sched w = Some w' ->
  closed_by_defer_only w'.
Proof.
  revert w. induction sched as [|l rest IH]; simpl; intros w J H.
  - now inversion H; subst.
  - destruct (step c t l w) as [w1|] eqn:Hs; [|discriminate].
    apply (IH w1); [|exact H].
    now apply (step_closed_by_defer_only l w).
Qed.

End Closing.

(** C4: in every session that ends by a [return] from the loop (timeout,
    disconnect, write error, or one of the flag-based client's closing
    guards), [connection.Close()] has been called exactly once, by the
    orchestrator, and never by a pump. *)
Theorem connection_closed_exactly_once (c : Client) (t : TelnetClient)
    (options : CommandLine) (env : Environment) (sched : list Label)
    (w : World) (why : Reason) :
  run c t sched (ProcessData c t options env) = Some w ->
  orch w = Returned why ->
  closes (trace w) = 1%nat
  /\ closes_by Orchestrator (trace w) = 1%nat
  /\ closes_by InputPump (trace w) = 0%nat
  /\ closes_by ServerPump (trace w) = 0%nat.
Proof.
  intros Hrun Ho.
  destruct (run_closed_by_defer_only c t sched _ w
              (start_closed_by_defer_only c t options env) Hrun)
    as (J1 & J2 & J3 & J4 & _).
  rewrite Ho in J1, J2. simpl in J1, J2. auto.
Qed.

(** * The flag-based client after the end of input *)

Section FlagClosing.

Variable t : TelnetClient.

Lemma flag_case_when_closing (x : Z) (v : LoopVars) (k : SelectCase) :
  closing v = true ->
  written_to_output
    (map (pair Orchestrator) (fst (select_case Flag t x v k))) = []
  /\ (forall v', snd (select_case Flag t x v k) = Continue v' ->
                 closing v' = true)
  /\ (forall response, k = CaseResponse response ->
        snd (select_case Flag t x v k) = Return ClosingStopReads).
Proof.
  intros Hc. destruct k; simpl; rewrite ?Hc; simpl.
  - repeat split; discriminate.
  - repeat split; try discriminate. intros v' H. now inversion H.
  - repeat split; discriminate.
  - destruct (afterEOFMode v && negb (somethingRead v)); simpl;
      repeat split; try discriminate.
    intros v' H. inversion H. now subst.
  - repeat split; discriminate.
Qed.

Lemma read_effects_write_no_output (r : ReadResult) :
  written_to_output (input_read_effects r) = []
  /\ written_to_output (server_read_effects r) = [].
Proof.
  unfold input_read_effects, server_read_effects.
  destruct (rd_err r); auto.
Qed.

Lemma after_outcome_writes_no_output (out : Outcome) :
  written_to_output (after_outcome out) = [].
Proof. destruct out; reflexivity. Qed.

Lemma step_when_closing (l : Label) (w w' : World) :
  closing_set w -> step Flag t l w = Some w' ->
  closing_set w'
  /\ written_to_output (trace w') = written_to_output (trace w).
Proof.
  intros K Hs. unfold closing_set in *.
  destruct (step_has_shape Flag t l w w' Hs)
    as [r Ht Ho _ | r Ht Ho _ _ | v n Ht Ho Ho' _ _
        | v0 v k x Hw Ht Hn _ Hv Hrel | v d Ht Ho _ _ _ _ _].
  - rewrite Ht, Ho, written_to_output_app.
    destruct (read_effects_write_no_output r) as [-> _].
    now rewrite app_nil_r.
  - rewrite Ht, Ho, written_to_output_app.
    destruct (read_effects_write_no_output r) as [_ ->].
    now rewrite app_nil_r.
  - rewrite Ht. split; [|reflexivity].
    specialize (K v). rewrite Ho in K. specialize (K eq_refl).
    intros v1 H1. destruct Ho' as [E|E]; rewrite E in H1;
      inversion H1; now subst.
  - assert (Hc : closing v = true).
    { specialize (K v0 Hv).
      destruct Hrel as [-> | (_ & -> & _)]; auto. }
    destruct (flag_case_when_closing (now x) v k Hc) as (E1 & E2 & _).
    subst w'. rewrite run_case_trace, run_case_orch, Ht.
    rewrite !written_to_output_app, E1, after_outcome_writes_no_output.
    rewrite !app_nil_r. split; [|reflexivity].
    intros v1 H1.
    destruct (snd (select_case Flag t (now x) v k)) eqn:E;
      try discriminate.
    inversion H1; subst. now apply E2.
  - now rewrite Ht, Ho.
Qed.

Lemma run_when_closing (sched : list Label) (w w' : World) :
  closing_set w -> run Flag t sched w = Some w' ->
  closing_set w'
  /\ written_to_output (trace w') = written_to_output (trace w).
Proof.
  revert w. induction sched as [|l rest IH]; simpl; intros w K H.
  - inversion H; subst. auto.
  - destruct (step Flag t l w) as [w1|] eqn:Hs; [|discriminate].
    destruct (step_when_closing l w w1 K Hs) as [K1 E1].
    destruct (IH w1 K1 H) as [K2 E2].
    split; [exact K2 | congruence].
Qed.

End FlagClosing.

(** C10: in the flag-based client, from the moment [select] has taken the
    end-of-input signal, nothing more is written to local output, whatever
    happens next; an inbound chunk received after that moment is not
    relayed: the body of its case returns at once. *)
Theorem flag_client_relays_nothing_after_eof (t : TelnetClient)
    (w w1 w2 : World) (sched : list Label) :
  input_pump w = Signalling ->
  step Flag t InputHandoff w = Some w1 ->
  run Flag t sched w1 = Some w2 ->
  written_to_output (trace w2) = written_to_output (trace w)
  /\ (forall v n,
        orch w2 = HoldingResponse v n ->
        exit_status w2 = None ->
        exists w3,
          step Flag t RunResponse w2 = Some w3
          /\ orch w3 = Returned ClosingStopReads
          /\ now w3 = now w2
          /\ written_to_output (trace w3) = written_to_output (trace w)).
Proof.
  intros Hp Hs Hrun.
  assert (K1 : closing_set w1 /\ trace w1 = trace w).
  { unfold step in Hs. destruct (exit_status w); [discriminate|].
    rewrite Hp in Hs. destruct (orch w); try discriminate.
    inversion Hs; subst; clear Hs. split.
    - intros v1 H1. simpl in H1. inversion H1. reflexivity.
    - rewrite run_case_trace. simpl. now rewrite app_nil_r. }
  destruct K1 as [K1 Ht1].
  destruct (run_when_closing t sched w1 w2 K1 Hrun) as [K2 E2].
  rewrite Ht1 in E2. split; [exact E2|].
  intros v n Ho He.
  assert (Hc : closing v = true) by (apply K2; now rewrite Ho).
  unfold step. rewrite He, Ho. eexists. split; [reflexivity|].
  destruct (flag_case_when_closing t (now w2) v
              (CaseResponse (firstn n (server_buffer w2))) Hc)
    as (E1 & _ & E3).
  specialize (E3 _ eq_refl).
  rewrite run_case_orch, run_case_trace, E3.
  destruct (run_case_rest Flag t v (CaseResponse (firstn n (server_buffer w2))) w2)
    as (-> & _).
  rewrite !written_to_output_app, E1. simpl. rewrite !app_nil_r.
  auto.
Qed.

Lemma flag_client_relays_nothing_after_eof_witness :
  exists w w1 w2,
    run Flag (scenario_client (200 * Millisecond)) [InputRead]
      (scenario Flag (200 * Millisecond) [eof] [chunk "bye"]) = Some w
    /\ input_pump w = Signalling
    /\ step Flag (scenario_client (200 * Millisecond)) InputHandoff w = Some w1
    /\ run Flag (scenario_client (200 * Millisecond))
         [Delay (100 * Millisecond); ServerRead; ServerHandoff; RunResponse] w1
       = Some w2
    /\ written_to_output (trace w2) = [].
Proof.
  eexists. eexists. eexists.
  match goal with
  | |- ?R = Some ?w /\ ?P /\ ?S = Some ?w1 /\ ?R2 = Some ?w2 /\ _ =>
      assert (Hrun : R = Some w) by (vm_compute; reflexivity);
      assert (Hstep : S = Some w1) by (vm_compute; reflexivity);
      assert (Hrun2 : R2 = Some w2) by (vm_compute; reflexivity)
  end.
  split; [exact Hrun|]. split; [reflexivity|]. split; [exact Hstep|].
  split; [exact Hrun2|].
  match type of Hstep with
  | step _ ?t _ ?w = Some ?w1 =>
      match type of Hrun2 with
      | run _ _ ?sched _ = Some ?w2 =>
          destruct (flag_client_relays_nothing_after_eof t w w1 w2 sched
                      eq_refl Hstep Hrun2) as [H _]
      end
  end.
  rewrite H. reflexivity.
Defined.

(** * The ticker and the timeout *)

Section Timing.

Variable c : Client.
Variable t : TelnetClient.

Lemma select_case_ticker (x : Z) (v v' : LoopVars) (k : SelectCase) :
  snd (select_case c t x v k) = Continue v' ->
  afterEOFResponseTicker v' = afterEOFResponseTicker v
  \/ NewTicker x (responseTimeout t) = Some (afterEOFResponseTicker v').
Proof.
  destruct c, k; simpl; unfold write_request, relay_response; simpl;
    repeat match goal with
           | |- context [match ?r with _ => _ end] =>
               destruct r eqn:?; simpl
           end;
    intros H; inversion H; subst; simpl; auto.
Qed.

Lemma start_ticker_on_time (options : CommandLine) (env : Environment) :
  ticker_on_time t (ProcessData c t options env).
Proof.
  unfold ProcessData, ticker_on_time.
  destruct (env_dial env); [destruct (env_handshake env)|];
    [|simpl; discriminate|simpl; discriminate].
  unfold NewTicker. destruct (0 <? responseTimeout t) eqn:E;
    [|simpl; discriminate].
  apply Z.ltb_lt in E. simpl. intros v H. inversion H; subst. simpl. lia.
Qed.

Lemma step_ticker_on_time (l : Label) (w w' : World) :
  ticker_on_time t w -> step c t l w = Some w' -> ticker_on_time t w'.
Proof.
  intros K Hs. unfold ticker_on_time in *.
  destruct (step_has_shape c t l w w' Hs)
    as [r _ Ho Hn | r _ Ho Hn _ | v n _ Ho Ho' Hn _
        | v0 v k x Hw _ Hn _ Hv Hrel | v d _ Ho Hsel Hd1 Hd2 Hn _].
  - now rewrite Ho, Hn.
  - now rewrite Ho, Hn.
  - rewrite Hn. specialize (K v). rewrite Ho in K. specialize (K eq_refl).
    intros v1 H1. destruct Ho' as [E|E]; rewrite E in H1;
      inversion H1; now subst.
  - specialize (K v0 Hv). simpl in K. destruct K as (K0 & K1 & K2).
    assert (Kv : every (afterEOFResponseTicker v) = responseTimeout t
                 /\ now w <= fires_at (afterEOFResponseTicker v)
                    <= now w + responseTimeout t).
    { destruct Hrel as [-> | (_ & -> & Hf)]; simpl; [auto|].
      rewrite K1. lia. }
    subst w'. intros v1 H1. rewrite run_case_orch in H1.
    destruct (run_case_rest c t v k x) as (-> & _). rewrite Hn.
    destruct (snd (select_case c t (now x) v k)) as [v2|why|] eqn:E;
      try discriminate.
    inversion H1; subst v1. simpl.
    destruct (select_case_ticker (now x) v v2 k E) as [-> | Hnew].
    + tauto.
    + unfold NewTicker in Hnew. rewrite Hn in Hnew.
      destruct (0 <? responseTimeout t); [|discriminate].
      inversion Hnew as [Hk]. simpl. lia.
  - rewrite Ho, Hn. intros v1 H1. rewrite Hsel in K.
    specialize (K v eq_refl). rewrite Hsel in H1. inversion H1; subst v1.
    simpl in *. lia.
Qed.

Lemma run_ticker_on_time (sched : list Label) (w w' : World) :
  ticker_on_time t w -> run c t sched w = Some w' -> ticker_on_time t w'.
Proof.
  revert w. induction sched as [|l rest IH]; simpl; intros w K H.
  - now inversion H; subst.
  - destruct (step c t l w) as [w1|] eqn:Hs; [|discriminate].
    apply (IH w1); [|exact H]. now apply (step_ticker_on_time l w).
Qed.

Lemma select_case_when_something_read (x : Z) (v : LoopVars)
    (k : SelectCase) :
  somethingRead v = true ->
  snd (select_case c t x v k) <> Return InactivityTimeout
  /\ (forall v', snd (select_case c t x v k) = Continue v' ->
                 somethingRead v' = true).
Proof.
  intros Hr.
  destruct c, k; simpl; unfold write_request, relay_response; simpl;
    rewrite ?Hr, ?andb_false_r; simpl;
    repeat match goal with
           | |- context [match ?r with _ => _ end] =>
               destruct r eqn:?; simpl
           end;
    (split; [discriminate | intros v' H; inversion H; subst; auto]).
Qed.

Lemma step_something_read_set (l : Label) (w w' : World) :
  something_read_set w -> step c t l w = Some w' -> something_read_set w'.
Proof.
  intros [K N] Hs. unfold something_read_set in *.
  destruct (step_has_shape c t l w w' Hs)
    as [r _ Ho _ | r _ Ho _ _ | v n _ Ho Ho' _ _
        | v0 v k x Hw _ _ _ Hv Hrel | v d _ Ho _ _ _ _ _].
  - now rewrite Ho.
  - now rewrite Ho.
  - specialize (K v). rewrite Ho in K. specialize (K eq_refl).
    destruct Ho' as [E|E]; rewrite E; (split; [|discriminate]);
      intros v1 H1; inversion H1; now subst.
  - assert (Hr : somethingRead v = true).
    { specialize (K v0 Hv). destruct Hrel as [-> | (_ & -> & _)]; auto. }
    destruct (select_case_when_something_read (now x) v k Hr) as [E1 E2].
    subst w'. rewrite run_case_orch.
    destruct (snd (select_case c t (now x) v k)) as [v2|why|] eqn:E.
    + split; [|discriminate]. intros v1 H1. inversion H1; subst.
      now apply E2.
    + split; [discriminate|]. intros H. inversion H. now subst.
    + split; discriminate.
  - now rewrite Ho.
Qed.

(** Once an inbound chunk has been relayed, no later tick ends the
    session: the timeout case never returns again, in either client. *)
Lemma no_timeout_once_something_read (sched : list Label) (w w' : World) :
  something_read_set w -> run c t sched w = Some w' ->
  something_read_set w'.
Proof.
  revert w. induction sched as [|l rest IH]; simpl; intros w K H.
  - now inversion H; subst.
  - destruct (step c t l w) as [w1|] eqn:Hs; [|discriminate].
    apply (IH w1); [|exact H]. now apply (step_something_read_set l w).
Qed.

End Timing.

(** C5 at a failing input: with timeout 200ms, the end of input 150ms into
    the session and a silent server, the session ends by the timeout case
    at 200ms, only 50ms after the end of input, in both clients.  The
    specification, like the help text of the timeout flag, wants the full
    timeout to pass after the end of input. *)
Lemma timeout_before_full_period_after_eof :
  timeout_50ms_after_eof Kingpin /\ timeout_50ms_after_eof Flag.
Proof.
  split.
  - eexists. eexists. split; [vm_compute; reflexivity|].
    split; [reflexivity|]. split; [reflexivity|].
    split; [vm_compute; reflexivity|]. repeat split.
  - eexists. eexists. split; [vm_compute; reflexivity|].
    split; [reflexivity|]. split; [reflexivity|].
    split; [vm_compute; reflexivity|]. repeat split.
Qed.

(** C5, what the code does in general: when the input pump is about to
    signal the end of input and no inbound chunk has been relayed so far,
    then, if the server stays silent, the session ends by the timeout case
    at the first tick after the signal.  The done case does not restart
    the ticker, which runs since the loop started, so this tick comes at
    most one timeout after the signal and, against the specification,
    possibly earlier. *)
Theorem timeout_at_first_tick_after_eof (c : Client) (t : TelnetClient)
    (options : CommandLine) (env : Environment) (sched : list Label)
    (w : World) (v : LoopVars) :
  run c t sched (ProcessData c t options env) = Some w ->
  exit_status w = None ->
  orch w = Selecting v ->
  input_pump w = Signalling ->
  somethingRead v = false ->
  let d := fires_at (afterEOFResponseTicker v) - now w in
  0 <= d <= responseTimeout t
  /\ (exists w',
        run c t [InputHandoff; Delay d; Tick] w = Some w'
        /\ orch w' = Returned InactivityTimeout
        /\ now w' = now w + d)
  /\ (forall d', 0 <= d' < d ->
        run c t [InputHandoff; Delay d'; Tick] w = None).
Proof.
  intros Hrun He Ho Hp Hr d.
  pose proof (run_ticker_on_time c t sched _ w
                (start_ticker_on_time c t options env) Hrun) as K.
  unfold ticker_on_time in K. specialize (K v). rewrite Ho in K.
  specialize (K eq_refl). simpl in K. destruct K as (K0 & K1 & K2).
  split; [subst d; lia|].
  destruct (select_case_Done c t (now w) v) as (v1 & E & A1 & A2 & A3 & _).
  assert (Hstep : forall x, 0 <= x <= d ->
            run c t [InputHandoff; Delay x; Tick] w
            = if now w + x =? fires_at (afterEOFResponseTicker v)
              then Some (run_case c t
                           (set_ticker (rearm (afterEOFResponseTicker v1)) v1)
                           CaseTick
                           (set_now (now w + x)
                              (set_orch (Selecting v1)
                                 (record Orchestrator []
                                    (set_input_pump Terminated w)))))
              else None).
  { intros x Hx. simpl. unfold step at 1. rewrite He, Hp, Ho.
    unfold run_case at 1. simpl. rewrite E. simpl.
    unfold step at 1. simpl. rewrite He, A3.
    replace (0 <=? x) with true by (symmetry; apply Z.leb_le; lia).
    replace (now w + x <=? fires_at (afterEOFResponseTicker v)) with true
      by (symmetry; apply Z.leb_le; subst d; lia).
    simpl. unfold step. simpl. rewrite He, A3.
    destruct (now w + x =? fires_at (afterEOFResponseTicker v));
      reflexivity. }
  split.
  - rewrite (Hstep d) by lia.
    replace (now w + d =? fires_at (afterEOFResponseTicker v)) with true
      by (symmetry; apply Z.eqb_eq; subst d; lia).
    eexists. split; [reflexivity|].
    rewrite run_case_orch, select_case_Tick. simpl.
    rewrite A1, A2, Hr. simpl.
    destruct (run_case_rest c t
                (set_ticker (rearm (afterEOFResponseTicker v1)) v1) CaseTick
                (set_now (now w + d)
                   (set_orch (Selecting v1)
                      (record Orchestrator [] (set_input_pump Terminated w)))))
      as (-> & _).
    split; reflexivity.
  - intros d' Hd'. rewrite (Hstep d') by lia.
    replace (now w + d' =? fires_at (afterEOFResponseTicker v)) with false
      by (symmetry; apply Z.eqb_neq; subst d; lia).
    reflexivity.
Qed.

Lemma timeout_at_first_tick_after_eof_witness :
  exists w w',
    run Kingpin (scenario_client (200 * Millisecond))
      [Delay (150 * Millisecond); InputRead]
      (scenario Kingpin (200 * Millisecond) [eof] []) = Some w
    /\ run Kingpin (scenario_client (200 * Millisecond))
         [InputHandoff; Delay (50 * Millisecond); Tick] w = Some w'
    /\ orch w' = Returned InactivityTimeout
    /\ now w' = 200 * Millisecond.
Proof.
  eexists. 
  match goal with
  | |- exists w', ?R = Some ?w /\ _ =>
      assert (Hrun : R = Some w) by (vm_compute; reflexivity)
  end.
  destruct (timeout_at_first_tick_after_eof Kingpin
              (scenario_client (200 * Millisecond))
              (scenario_options (200 * Millisecond))
              (environment [eof] [])
              [Delay (150 * Millisecond); InputRead] _ _
              Hrun eq_refl eq_refl eq_refl eq_refl)
    as (_ & (w' & H1 & H2 & H3) & _).
  exists w'. split; [exact Hrun|]. split; [exact H1|]. split; [exact H2|].
  rewrite H3. reflexivity.
Defined.

(** C3, as the specification states it, fails: in Scenario D the
    kingpin-based client relays the chunk that arrives at 100ms, takes its
    next tick at 300ms and is still in its loop afterwards; the flag-based
    client leaves its loop at 100ms, through its closing guard, without
    relaying the chunk.  Neither ends by the timeout case at 300ms. *)
Lemma scenario_D_no_timeout_at_300ms :
  (exists w,
     run Kingpin (scenario_client (200 * Millisecond))
       (scenario_D_until_arrival
          ++ [RunResponse; Delay (200 * Millisecond); Tick])
       (scenario Kingpin (200 * Millisecond) [eof] [chunk "bye"]) = Some w
     /\ now w = 300 * Millisecond
     /\ in_loop (orch w) = true
     /\ exit_status w = None
     /\ written_to_output (trace w) = [bytes_of "bye"])
  /\ (exists w,
        run Flag (scenario_client (200 * Millisecond))
          (scenario_D_until_arrival ++ [RunResponse])
          (scenario Flag (200 * Millisecond) [eof] [chunk "bye"]) = Some w
        /\ now w = 100 * Millisecond
        /\ orch w = Returned ClosingStopReads
        /\ written_to_output (trace w) = []).
Proof.
  split; eexists; (split; [vm_compute; reflexivity|]); repeat split.
Qed.

(** C3 (amended): an inbound chunk received after the end-of-input signal
    is handled as follows.  The kingpin-based client relays it and
    restarts its ticker, so that the next tick is taken one full timeout
    after the arrival and none before.  The flag-based client, whose
    closing flag is set by then, leaves its loop at the arrival without
    relaying the chunk. *)
Theorem inbound_chunk_after_eof (t : TelnetClient) (w : World)
    (v : LoopVars) (n : nat) :
  exit_status w = None ->
  orch w = HoldingResponse v n ->
  afterEOFMode v = true ->
  (0 < responseTimeout t ->
   exists w' v',
     step Kingpin t RunResponse w = Some w'
     /\ orch w' = Selecting v'
     /\ now w' = now w
     /\ fires_at (afterEOFResponseTicker v') = now w + responseTimeout t
     /\ written_to_output (trace w')
        = written_to_output (trace w) ++ [firstn n (server_buffer w)]
     /\ (forall d, 0 <= d < responseTimeout t ->
           run Kingpin t [Delay d; Tick] w' = None)
     /\ (exists w'',
           run Kingpin t [Delay (responseTimeout t); Tick] w' = Some w''
           /\ now w'' = now w + responseTimeout t))
  /\ (closing v = true ->
      exists w',
        step Flag t RunResponse w = Some w'
        /\ orch w' = Returned ClosingStopReads
        /\ now w' = now w
        /\ written_to_output (trace w') = written_to_output (trace w)).
Proof.
  intros He Ho Ha. split.
  - intros HT. unfold step at 1. rewrite He, Ho.
    assert (E : select_case Kingpin t (now w) v
                  (CaseResponse (firstn n (server_buffer w)))
                = ([OutWrite (firstn n (server_buffer w))],
                   Continue
                     (set_ticker
                        {| fires_at := now w + responseTimeout t;
                           every := responseTimeout t |}
                        (set_somethingRead true v)))).
    { simpl. unfold relay_response. simpl. rewrite Ha. unfold NewTicker.
      replace (0 <? responseTimeout t) with true
        by (symmetry; now apply Z.ltb_lt).
      reflexivity. }
    eexists. eexists. split; [reflexivity|].
    unfold run_case. rewrite E. simpl.
    do 3 (split; [reflexivity|]). split; [|split].
    + now rewrite written_to_output_app.
    + intros d Hd. unfold step. simpl. rewrite He.
      replace (0 <=? d) with true by (symmetry; apply Z.leb_le; lia).
      replace (now w + d <=? now w + responseTimeout t) with true
        by (symmetry; apply Z.leb_le; lia).
      simpl. rewrite He.
      replace (now w + d =? now w + responseTimeout t) with false
        by (symmetry; apply Z.eqb_neq; lia).
      reflexivity.
    + unfold step. simpl. rewrite He.
      replace (0 <=? responseTimeout t) with true
        by (symmetry; apply Z.leb_le; lia).
      rewrite Z.leb_refl. simpl. rewrite He, Z.eqb_refl.
      eexists. split; [reflexivity|].
      match goal with
      | |- now (run_case ?c ?t ?v ?k ?x) = _ =>
          destruct (run_case_rest c t v k x) as (-> & _)
      end.
      reflexivity.
  - intros Hc. unfold step. rewrite He, Ho.
    eexists. split; [reflexivity|].
    unfold run_case. simpl. rewrite Hc. simpl.
    do 2 (split; [reflexivity|]).
    rewrite <- !app_assoc, written_to_output_app. simpl.
    now rewrite app_nil_r.
Qed.

Lemma inbound_chunk_after_eof_witness :
  (exists w w' v',
     run Kingpin (scenario_client (200 * Millisecond)) scenario_D_until_arrival
       (scenario Kingpin (200 * Millisecond) [eof] [chunk "bye"]) = Some w
     /\ now w = 100 * Millisecond
     /\ step Kingpin (scenario_client (200 * Millisecond)) RunResponse w
        = Some w'
     /\ orch w' = Selecting v'
     /\ fires_at (afterEOFResponseTicker v') = 300 * Millisecond)
  /\ (exists w w',
        run Flag (scenario_client (200 * Millisecond)) scenario_D_until_arrival
          (scenario Flag (200 * Millisecond) [eof] [chunk "bye"]) = Some w
        /\ now w = 100 * Millisecond
        /\ step Flag (scenario_client (200 * Millisecond)) RunResponse w
           = Some w'
        /\ orch w' = Returned ClosingStopReads).
Proof.
  split.
  - eexists.
    match goal with
    | |- exists w' v', ?R = Some ?w /\ _ =>
        assert (Hrun : R = Some w) by (vm_compute; reflexivity)
    end.
    match type of Hrun with
    | _ = Some ?w0 =>
        destruct (inbound_chunk_after_eof
                    (scenario_client (200 * Millisecond))
                    w0 _ _ eq_refl eq_refl eq_refl) as [H _]
    end.
    destruct (H eq_refl) as (w' & v' & H1 & H2 & H3 & H4 & _).
    exists w', v'. split; [exact Hrun|]. split; [reflexivity|].
    split; [exact H1|]. split; [exact H2|]. rewrite H4. reflexivity.
  - eexists.
    match goal with
    | |- exists w', ?R = Some ?w /\ _ =>
        assert (Hrun : R = Some w) by (vm_compute; reflexivity)
    end.
    match type of Hrun with
    | _ = Some ?w0 =>
        destruct (inbound_chunk_after_eof
                    (scenario_client (200 * Millisecond))
                    w0 _ _ eq_refl eq_refl eq_refl) as [_ H]
    end.
    destruct (H eq_refl) as (w' & H1 & H2 & _).
    exists w'. split; [exact Hrun|]. split; [reflexivity|].
    split; [exact H1|exact H2].
Defined.

(** * Fidelity of the relay from local input to the connection *)

Section Fidelity.

Variable c : Client.
Variable t : TelnetClient.

Lemma is_prefix_refl (l : list byte) : is_prefix l l.
Proof. exists []. now rewrite app_nil_r. Qed.

Lemma is_prefix_app (l p q : list byte) :
  is_prefix p q -> is_prefix (l ++ p) (l ++ q).
Proof. intros [r ->]. exists r. now rewrite app_assoc. Qed.

Lemma is_prefix_firstn (n : nat) (l : list byte) : is_prefix (firstn n l) l.
Proof. exists (skipn n l). now rewrite firstn_skipn. Qed.

Lemma firstn_read_into (buffer data : list byte) :
  firstn (List.length data) (read_into buffer data) = data.
Proof.
  unfold read_into. rewrite firstn_app, Nat.sub_diag, firstn_all. simpl.
  now rewrite app_nil_r.
Qed.

Lemma orchestrator_reads_nothing (es : list Effect) :
  read_from_stdin (map (pair Orchestrator) es) = [].
Proof. induction es as [|e es IH]; simpl; auto. Qed.

Lemma after_outcome_neutral (out : Outcome) :
  read_from_stdin (after_outcome out) = []
  /\ sent_to_connection (after_outcome out) = [].
Proof. destruct out; auto. Qed.

Lemma server_read_effects_neutral (r : ReadResult) :
  read_from_stdin (server_read_effects r) = []
  /\ sent_to_connection (server_read_effects r) = [].
Proof. unfold server_read_effects. destruct (rd_err r); auto. Qed.

Lemma input_read_effects_read (r : ReadResult) :
  read_from_stdin (input_read_effects r)
  = match rd_err r with ErrNil => rd_data r | _ => [] end
  /\ sent_to_connection (input_read_effects r) = [].
Proof.
  unfold input_read_effects. simpl.
  destruct (rd_err r); simpl; rewrite ?app_nil_r; auto.
Qed.

Lemma write_request_sends (v : LoopVars) (request : list byte)
    (r : WriteResult) :
  let res := write_request v request r in
  is_prefix (sent_to_connection (map (pair Orchestrator) (fst res))) request
  /\ (forall v', snd res = Continue v' ->
        sent_to_connection (map (pair Orchestrator) (fst res)) = request).
Proof.
  destruct r; simpl; rewrite ?app_nil_r; split.
  - apply is_prefix_refl.
  - reflexivity.
  - apply is_prefix_firstn.
  - discriminate.
Qed.

(** What the request case puts on the wire: an initial segment of the
    request, and all of it when the loop goes on. *)
Lemma request_case_sends (x : Z) (v : LoopVars) (request : list byte)
    (r : WriteResult) :
  let res := select_case c t x v (CaseRequest request r) in
  is_prefix (sent_to_connection (map (pair Orchestrator) (fst res))) request
  /\ (forall v', snd res = Continue v' ->
        sent_to_connection (map (pair Orchestrator) (fst res)) = request).
Proof.
  destruct c; simpl; [|destruct (closing v)]; simpl.
  - apply write_request_sends.
  - split; [now exists request | discriminate].
  - apply write_request_sends.
Qed.

(** The other cases put nothing on the wire. *)
Lemma other_cases_send_nothing (x : Z) (v : LoopVars) (k : SelectCase) :
  (forall request r, k <> CaseRequest request r) ->
  sent_to_connection (map (pair Orchestrator) (fst (select_case c t x v k)))
  = [].
Proof.
  intros Hk. destruct c, k; simpl; unfold relay_response; simpl;
    try (exfalso; eapply Hk; reflexivity);
    repeat match goal with
           | |- context [match ?r with _ => _ end] => destruct r; simpl
           end; reflexivity.
Qed.

Lemma run_case_read_from_stdin (v : LoopVars) (k : SelectCase) (x : World) :
  read_from_stdin (trace (run_case c t v k x)) = read_from_stdin (trace x).
Proof.
  rewrite run_case_trace, !read_from_stdin_app, orchestrator_reads_nothing.
  destruct (after_outcome_neutral (snd (select_case c t (now x) v k)))
    as [-> _].
  now rewrite !app_nil_r.
Qed.

Lemma run_case_sent (v : LoopVars) (k : SelectCase) (x : World) :
  sent_to_connection (trace (run_case c t v k x))
  = sent_to_connection (trace x)
    ++ sent_to_connection
         (map (pair Orchestrator) (fst (select_case c t (now x) v k))).
Proof.
  rewrite run_case_trace, !sent_to_connection_app.
  destruct (after_outcome_neutral (snd (select_case c t (now x) v k)))
    as [_ ->].
  now rewrite !app_nil_r.
Qed.

Lemma run_case_pending (v : LoopVars) (k : SelectCase) (x : World) :
  exit_status (run_case c t v k x) = None ->
  pending (run_case c t v k x)
  = match input_pump x with
    | Sending n => firstn n (input_buffer x)
    | _ => []
    end
  /\ holds_request (run_case c t v k x) = false.
Proof.
  unfold pending, holds_request.
  rewrite run_case_exit_status, run_case_orch.
  destruct (run_case_rest c t v k x) as (_ & _ & _ & -> & _ & -> & _).
  destruct (snd (select_case c t (now x) v k)); try discriminate.
  intros _. split; reflexivity.
Qed.

(** A case other than the request case keeps the invariant, when it runs
    in a world [x] that differs from [w] in control state only and the
    orchestrator holds no request in [w]. *)
Lemma fidelity_other_case (base : list byte) (v : LoopVars) (k : SelectCase)
    (w x : World) :
  (forall request r, k <> CaseRequest request r) ->
  fidelity base w ->
  exit_status w = None ->
  holds_request w = false ->
  trace x = trace w ->
  exit_status x = None ->
  input_buffer x = input_buffer w ->
  (input_pump x = input_pump w
   \/ (input_pump w = Signalling /\ input_pump x = Terminated)) ->
  fidelity base (run_case c t v k x).
Proof.
  intros Hk (relayed & Hsent & Hinv) He Hh Ht Hex Hb Hp.
  rewrite He in Hinv. destruct Hinv as [Hread _].
  assert (Hpend : pending w = match input_pump w with
                              | Sending n => firstn n (input_buffer w)
                              | _ => []
                              end).
  { unfold pending. unfold holds_request in Hh.
    destruct (orch w); try discriminate; reflexivity. }
  rewrite Hpend in Hread.
  exists relayed. split.
  - rewrite run_case_sent, other_cases_send_nothing by exact Hk.
    now rewrite app_nil_r, Ht.
  - rewrite run_case_read_from_stdin, Ht.
    destruct (exit_status (run_case c t v k x)) eqn:E.
    + destruct (run_case_rest c t v k x) as (_ & _ & _ & _ & _ & -> & _).
      rewrite Hread. split.
      * eexists. reflexivity.
      * intros HT. destruct Hp as [Hp | [Hp _]]; rewrite ?Hp in *;
          rewrite ?HT in *; rewrite ?Hp in *; now rewrite app_nil_r.
    + destruct (run_case_pending v k x E) as [-> ->].
      rewrite Hb. split; [|discriminate].
      rewrite Hread.
      destruct Hp as [-> | [-> ->]]; reflexivity.
Qed.


Lemma fidelity_alive (base : list byte) (w : World) :
  fidelity base w -> exit_status w = None ->
  exists relayed,
    sent_to_connection (trace w) = base ++ relayed
    /\ read_from_stdin (trace w) = relayed ++ pending w
    /\ (holds_request w = true -> input_pump w = Reading).
Proof.
  intros (relayed & Hs & Hinv) He. rewrite He in Hinv.
  exists relayed. tauto.
Qed.

Lemma step_fidelity (base : list byte) (l : Label) (w w' : World) :
  fidelity base w ->
  step c t l w = Some w' ->
  is_InputRead l && holds_request w = false ->
  fidelity base w'.
Proof.
  intros F Hs Hok.
  pose proof (step_needs_live_process c t l w w' Hs) as He.
  destruct (fidelity_alive base w F He) as (relayed & Hsent & Hread & Hhold).
  unfold step in Hs. rewrite He in Hs. destruct l.
  - (* InputRead *)
    simpl in Hok.
    destruct (input_pump w) eqn:Hp; try discriminate.
    destruct (stdin w) as [|r rest]; [discriminate|].
    inversion Hs; subst w'; clear Hs.
    assert (Hpend : pending w = []).
    { unfold pending. rewrite Hp. unfold holds_request in Hok.
      destruct (orch w); try discriminate; reflexivity. }
    rewrite Hpend, app_nil_r in Hread.
    exists relayed.
    rewrite readInputData_read_trace, sent_to_connection_app,
      read_from_stdin_app, Hread.
    destruct (input_read_effects_read r) as [-> ->].
    split; [now rewrite app_nil_r, Hsent|].
    unfold readInputData_read, pending, holds_request.
    unfold holds_request in Hok.
    destruct (rd_err r); simpl; rewrite ?He;
      destruct (orch w); try discriminate;
      rewrite ?firstn_read_into, ?app_nil_r;
      (split; [first [reflexivity | apply is_prefix_refl]
              | first [discriminate | reflexivity]]).
  - (* InputHandoff *)
    destruct (input_pump w) eqn:Hp; try discriminate;
      destruct (orch w) eqn:Ho; try discriminate;
      inversion Hs; subst w'; clear Hs.
    + exists relayed. simpl. rewrite He. split; [exact Hsent|].
      unfold pending, holds_request in *. rewrite Hp, Ho in Hread.
      simpl. split; auto.
    + apply fidelity_other_case with (w := w); simpl; auto.
      * discriminate.
      * unfold holds_request. now rewrite Ho.
  - (* RunRequest *)
    destruct (orch w) eqn:Ho; try discriminate.
    inversion Hs; subst w'; clear Hs.
    assert (Hp : input_pump w = Reading).
    { apply Hhold. unfold holds_request. now rewrite Ho. }
    unfold pending in Hread. rewrite Ho in Hread.
    destruct (request_case_sends (now w) v (firstn n (input_buffer w)) r)
      as [[rest Hpre] Hall].
    exists (relayed
            ++ sent_to_connection
                 (map (pair Orchestrator)
                    (fst (select_case c t (now w) v
                            (CaseRequest (firstn n (input_buffer w)) r))))).
    split; [now rewrite run_case_sent, Hsent, app_assoc|].
    rewrite run_case_read_from_stdin, Hread.
    destruct (exit_status (run_case c t v
                (CaseRequest (firstn n (input_buffer w)) r) w)) eqn:E.
    + destruct (run_case_rest c t v
                  (CaseRequest (firstn n (input_buffer w)) r) w)
        as (_ & _ & _ & _ & _ & -> & _).
      rewrite Hp. split; [|discriminate].
      apply is_prefix_app. now exists rest.
    + destruct (run_case_pending v
                  (CaseRequest (firstn n (input_buffer w)) r) w E)
        as [-> ->].
      rewrite Hp, app_nil_r. split; [|discriminate].
      rewrite run_case_exit_status in E.
      destruct (snd (select_case c t (now w) v
                       (CaseRequest (firstn n (input_buffer w)) r)))
        as [v'| |] eqn:E'; try discriminate.
      now rewrite (Hall v' eq_refl).
  - (* ServerRead *)
    destruct (server_pump w); try discriminate.
    destruct (socket w) as [|r rest]; [discriminate|].
    inversion Hs; subst w'; clear Hs.
    exists relayed.
    rewrite readServerData_read_trace, sent_to_connection_app,
      read_from_stdin_app, readServerData_read_exit_status, He.
    destruct (server_read_effects_neutral r) as [-> ->].
    rewrite !app_nil_r. split; [exact Hsent|].
    unfold pending, holds_request in *.
    rewrite readServerData_read_orch.
    unfold readServerData_read. destruct (rd_err r); simpl; auto.
  - (* ServerHandoff *)
    destruct (server_pump w) eqn:Hp; try discriminate;
      destruct (orch w) eqn:Ho; try discriminate;
      inversion Hs; subst w'; clear Hs.
    + exists relayed. simpl. rewrite He. split; [exact Hsent|].
      unfold pending, holds_request in *. rewrite Ho in Hread.
      simpl. split; [exact Hread | discriminate].
    + apply fidelity_other_case with (w := w); simpl; auto.
      * discriminate.
      * unfold holds_request. now rewrite Ho.
  - (* RunResponse *)
    destruct (orch w) eqn:Ho; try discriminate.
    inversion Hs; subst w'; clear Hs.
    apply fidelity_other_case with (w := w); simpl; auto.
    + discriminate.
    + unfold holds_request. now rewrite Ho.
  - (* Tick *)
    destruct (orch w) eqn:Ho; try discriminate.
    destruct (now w =? fires_at (afterEOFResponseTicker v)); [|discriminate].
    inversion Hs; subst w'; clear Hs.
    apply fidelity_other_case with (w := w); simpl; auto.
    + discriminate.
    + unfold holds_request. now rewrite Ho.
  - (* Delay *)
    destruct (orch w) eqn:Ho; try discriminate.
    destruct ((0 <=? d) && (now w + d <=? fires_at (afterEOFResponseTicker v)));
      [|discriminate].
    inversion Hs; subst w'; clear Hs.
    exists relayed. simpl. rewrite He. split; [exact Hsent|].
    unfold pending, holds_request in *. simpl. rewrite Ho in *.
    split; [exact Hread | discriminate].
Qed.

Lemma run_fidelity (base : list byte) (sched : list Label) (w w' : World) :
  fidelity base w ->
  run c t sched w = Some w' ->
  handoff_respected c t sched w = true ->
  fidelity base w'.
Proof.
  revert w. induction sched as [|l rest IH]; simpl; intros w F H Hr.
  - now inversion H; subst.
  - destruct (step c t l w) as [w1|] eqn:Hs; [|discriminate].
    apply andb_true_iff in Hr. destruct Hr as [Hr1 Hr2].
    apply negb_true_iff in Hr1.
    apply (IH w1); auto.
    now apply (step_fidelity base l w).
Qed.

Lemma start_fidelity (options : CommandLine) (env : Environment) :
  let w := ProcessData c t options env in
  fidelity (sent_to_connection (trace w)) w.
Proof.
  intros w. exists []. split; [now rewrite app_nil_r|].
  subst w. unfold ProcessData.
  destruct (env_dial env); [destruct (env_handshake env)|];
    [destruct (NewTicker 0 (responseTimeout t))| |]; simpl;
    (split; [try reflexivity; apply is_prefix_refl
            | try discriminate; reflexivity]).
Qed.

End Fidelity.

(** C2, as the specification states it, fails: in Scenario E the input pump
    has read "abcd" when the server disconnects, and only "ab" has been
    written to the connection after the handshake.  This holds for both
    clients. *)
Lemma scenario_E_discards_input :
  scenario_E_loses_input Kingpin /\ scenario_E_loses_input Flag.
Proof.
  split; eexists; (split; [vm_compute; reflexivity|]); repeat split.
Qed.

(** C2 (amended): as long as the input pump does not call [Read] again
    while the orchestrator still holds a slice it has not written, the
    bytes written to the connection after the handshake are an initial
    segment of the bytes read from local input with a nil error, in the
    same order, and they are all of them once the end-of-input signal has
    been taken.  Input read but not yet written when the session ends
    earlier is discarded. *)
Theorem relayed_input_is_prefix_of_read_input (c : Client) (t : TelnetClient)
    (options : CommandLine) (env : Environment) (sched : list Label)
    (w : World) :
  let w0 := ProcessData c t options env in
  run c t sched w0 = Some w ->
  handoff_respected c t sched w0 = true ->
  exists relayed,
    sent_to_connection (trace w) = sent_to_connection (trace w0) ++ relayed
    /\ is_prefix relayed (read_from_stdin (trace w))
    /\ (eof_processed w -> relayed = read_from_stdin (trace w)).
Proof.
  intros w0 Hrun Hr.
  destruct (run_fidelity c t _ sched w0 w
              (start_fidelity c t options env) Hrun Hr)
    as (relayed & Hsent & Hinv).
  exists relayed. split; [exact Hsent|].
  destruct (exit_status w).
  - exact Hinv.
  - destruct Hinv as [Hread Hhold]. rewrite Hread. split.
    + eexists. reflexivity.
    + unfold eof_processed. intros HT.
      unfold pending. unfold holds_request in Hhold. rewrite HT in *.
      destruct (orch w); try (now rewrite app_nil_r).
      specialize (Hhold eq_refl). discriminate.
Qed.

Lemma relayed_input_is_prefix_of_read_input_witness :
  exists w,
    run Flag (scenario_client (200 * Millisecond)) relay_two_chunks
      (scenario Flag (200 * Millisecond) [chunk "ab"; chunk "cd"; eof] [])
    = Some w
    /\ handoff_respected Flag (scenario_client (200 * Millisecond))
         relay_two_chunks
         (scenario Flag (200 * Millisecond) [chunk "ab"; chunk "cd"; eof] [])
       = true
    /\ sent_to_connection (trace w)
       = bytes_of (handshake Flag (scenario_options (200 * Millisecond)))
         ++ bytes_of "abcd".
Proof.
  eexists.
  match goal with
  | |- ?R = Some ?w /\ ?H = true /\ _ =>
      assert (Hrun : R = Some w) by (vm_compute; reflexivity);
      assert (Hresp : H = true) by (vm_compute; reflexivity)
  end.
  split; [exact Hrun|]. split; [exact Hresp|].
  destruct (relayed_input_is_prefix_of_read_input Flag
              (scenario_client (200 * Millisecond))
              (scenario_options (200 * Millisecond))
              (environment [chunk "ab"; chunk "cd"; eof] [])
              relay_two_chunks _ Hrun Hresp)
    as (relayed & Hsent & _ & Hall).
  rewrite Hsent, (Hall eq_refl). reflexivity.
Defined.

(** The hypothesis of the amended C2 cannot be dropped: when the input
    pump reads "cd" into its buffer before the orchestrator has written
    the slice that held "ab", the connection receives "cd" twice and "ab"
    never. *)
Lemma overlapping_read_overwrites_request :
  exists w,
    run Kingpin (scenario_client (200 * Millisecond)) overlapping_schedule
      (scenario Kingpin (200 * Millisecond) [chunk "ab"; chunk "cd"] [])
    = Some w
    /\ handoff_respected Kingpin (scenario_client (200 * Millisecond))
         overlapping_schedule
         (scenario Kingpin (200 * Millisecond) [chunk "ab"; chunk "cd"] [])
       = false
    /\ read_from_stdin (trace w) = bytes_of "abcd"
    /\ sent_to_connection (trace w)
       = bytes_of (handshake Kingpin (scenario_options (200 * Millisecond)))
         ++ bytes_of "cdcd".
Proof.
  eexists. split; [vm_compute; reflexivity|].
  split; [vm_compute; reflexivity|]. split; reflexivity.
Qed.

Lemma connection_closed_exactly_once_witness :
  ends_closed_once Kingpin [eof] []
    (scenario_C_until_eof ++ scenario_C_after_eof) InactivityTimeout
  /\ ends_closed_once Flag [chunk "ab"; chunk "cd"] [eof]
       scenario_E RemoteDisconnect
  /\ ends_closed_once Kingpin [chunk "ab"] []
       [InputRead; InputHandoff; RunRequest (WriteFailed 1 "broken pipe")]
       WriteError.
Proof.
  repeat split; eexists;
    match goal with
    | |- ?R = Some ?w /\ _ =>
        assert (Hrun : R = Some w) by (vm_compute; reflexivity);
        split; [exact Hrun|]; split; [reflexivity|];
        match type of Hrun with
        | run ?c ?t ?sched (scenario _ ?T ?i ?s) = _ =>
            destruct (connection_closed_exactly_once c t (scenario_options T)
                        (environment i s) sched _ _ Hrun eq_refl)
              as (H1 & H2 & _)
        end;
        split; [exact H1 | exact H2]
    end.
Defined.

(** * Further properties of the handshake and of the address *)

Local Open Scope string_scope.

Section Strings.

Lemma append_assoc (a b c : string) : (a ++ b) ++ c = a ++ b ++ c.
Proof. induction a as [|x a IH]; simpl; [reflexivity | now rewrite IH]. Qed.

Lemma free_of_app (x : ascii) (a b : string) :
  free_of x (a ++ b) <-> free_of x a /\ free_of x b.
Proof.
  induction a as [|y a IH]; simpl; [tauto|]. rewrite IH. tauto.
Qed.

Lemma not_free_of_own (x : ascii) (a b : string) :
  ~ free_of x (a ++ String x b).
Proof.
  intros H. apply free_of_app in H. destruct H as [_ [H _]]. now apply H.
Qed.

(** A string is cut at the first occurrence of a character in one way
    only. *)
Lemma split_at_first (x : ascii) (a a' b b' : string) :
  free_of x a -> free_of x a' ->
  a ++ String x b = a' ++ String x b' -> a = a' /\ b = b'.
Proof.
  revert a'. induction a as [|y a IH]; intros [|y' a']; simpl.
  - intros _ _ H. injection H as E. auto.
  - intros _ [H1 _] H. injection H as E1 E2. contradiction.
  - intros [H1 _] _ H. injection H as E1 E2. symmetry in E1. contradiction.
  - intros [_ H1] [_ H2] H. injection H as E1 E2. subst y'.
    destruct (IH a' H1 H2 E2) as [-> ->]. auto.
Qed.

(** A string is cut at the last occurrence of a character in one way
    only. *)
Lemma split_at_last (x : ascii) (a a' b b' : string) :
  free_of x b -> free_of x b' ->
  a ++ String x b = a' ++ String x b' -> a = a' /\ b = b'.
Proof.
  intros Hb Hb'. revert a'. induction a as [|y a IH]; intros [|y' a']; simpl.
  - intros H. injection H as E. auto.
  - intros H. injection H as E1 E2. subst. exfalso.
    now apply (not_free_of_own y' a' b').
  - intros H. injection H as E1 E2. subst. exfalso.
    now apply (not_free_of_own x a b).
  - intros H. injection H as E1 E2. subst y'.
    destruct (IH a' E2) as [-> ->]. auto.
Qed.

Lemma append_cancel_last (x : ascii) (a b : string) :
  a ++ String x "" = b ++ String x "" -> a = b.
Proof.
  revert b. induction a as [|y a IH]; intros [|y' b]; simpl; intros H.
  - reflexivity.
  - injection H as E1 E2. destruct b; discriminate.
  - injection H as E1 E2. destruct a; discriminate.
  - injection H as E1 E2. subst. now rewrite (IH b E2).
Qed.

Lemma occurrences_app (x : ascii) (a b : string) :
  occurrences x (a ++ b) = (occurrences x a + occurrences x b)%nat.
Proof.
  induction a as [|y a IH]; simpl; [reflexivity|]. rewrite IH. lia.
Qed.

Lemma occurrences_free (x : ascii) (a : string) :
  free_of x a -> occurrences x a = 0%nat.
Proof.
  induction a as [|y a IH]; simpl; [reflexivity|]. intros [H1 H2].
  rewrite (IH H2). destruct (Ascii.eqb_spec x y); [contradiction | reflexivity].
Qed.

(** Decimal digits hold no colon. *)
Lemma digits_free_of_colon (u : Decimal.uint) :
  free_of ":" (NilEmpty.string_of_uint u).
Proof.
  induction u; simpl; auto; split; auto; discriminate.
Qed.

End Strings.

(** What follows the fixed fields, by client and door code. *)
Lemma handshake_layout (c : Client) (options : CommandLine) :
  handshake c options
  = match c with
    | Kingpin => NUL ++ "local_username" ++ NUL ++ "["
    | Flag => NUL ++ NUL ++ "["
    end
    ++ tag options
    ++ String "]"
         (name options
          ++ String Ascii.zero
               match door_code options, c with
               | Some code, _ => "xtrn=" ++ code ++ NUL
               | None, Kingpin => ""
               | None, Flag => NUL
               end).
Proof.
  destruct c; simpl;
    unfold KingpinClient.handshake, FlagClient.handshake, Sprintf_handshake;
    destruct (door_code options); simpl;
    rewrite ?append_assoc; simpl; rewrite ?append_assoc; simpl;
    rewrite ?append_empty_r; reflexivity.
Qed.

(** X1: with a tag free of "]" and a name free of NUL, the payload determines
    the tag, the name and the door code: two configurations that give the
    same payload agree on all three. *)
Theorem handshake_determines_its_fields (c : Client) (o1 o2 : CommandLine) :
  free_of "]" (tag o1) -> free_of "]" (tag o2) ->
  free_of Ascii.zero (name o1) -> free_of Ascii.zero (name o2) ->
  handshake c o1 = handshake c o2 ->
  tag o1 = tag o2 /\ name o1 = name o2 /\ door_code o1 = door_code o2.
Proof.
  intros Ht1 Ht2 Hn1 Hn2 H. rewrite !handshake_layout in H.
  apply append_cancel_l in H.
  apply split_at_first in H; auto. destruct H as [E1 H].
  apply split_at_first in H; auto. destruct H as [E2 H].
  split; [exact E1|]. split; [exact E2|].
  destruct (door_code o1) as [x1|], (door_code o2) as [x2|], c;
    simpl in H; try discriminate; try reflexivity;
    inversion H as [H']; apply append_cancel_last in H'; now subst.
Qed.

Lemma handshake_determines_its_fields_witness :
  handshake Flag (scenario_A (Some "MRC")) = handshake Flag scenario_A_elsewhere
  /\ tag (scenario_A (Some "MRC")) = tag scenario_A_elsewhere
  /\ name (scenario_A (Some "MRC")) = name scenario_A_elsewhere
  /\ door_code (scenario_A (Some "MRC")) = door_code scenario_A_elsewhere.
Proof.
  split; [reflexivity|].
  apply (handshake_determines_its_fields Flag);
    simpl; repeat split; discriminate.
Defined.

(** The condition on the tag is needed: a "]" in the tag lets two
    different configurations give one payload. *)
Lemma bracket_in_tag_is_ambiguous :
  let o g n := {| host := "example.com"; port := 2513; name := n; tag := g;
                  xtrn := None; timeout := 1000 * Millisecond |} in
  handshake Flag (o "a]b" "c") = handshake Flag (o "a" "b]c")
  /\ handshake Kingpin (o "a]b" "c") = handshake Kingpin (o "a" "b]c").
Proof. split; reflexivity. Qed.

(** X2: every payload starts and ends with NUL.  With fields free of NUL, the
    flag-based client always sends four NULs, the kingpin-based client
    four with a door code and three without. *)
Theorem handshake_NUL_count (options : CommandLine) :
  (forall c, exists body, handshake c options = NUL ++ body ++ NUL)
  /\ (NUL_free options ->
      occurrences Ascii.zero (handshake Flag options) = 4%nat
      /\ occurrences Ascii.zero (handshake Kingpin options)
         = match door_code options with Some _ => 4 | None => 3 end%nat).
Proof.
  split.
  - intros c. rewrite handshake_layout.
    destruct c, (door_code options) as [code|]; simpl.
    + exists ("local_username" ++ NUL ++ "[" ++ tag options ++ "]"
              ++ name options ++ NUL ++ "xtrn=" ++ code).
      simpl. repeat (rewrite append_assoc; simpl). reflexivity.
    + exists ("local_username" ++ NUL ++ "[" ++ tag options ++ "]"
              ++ name options).
      simpl. repeat (rewrite append_assoc; simpl). reflexivity.
    + exists (NUL ++ "[" ++ tag options ++ "]" ++ name options ++ NUL
              ++ "xtrn=" ++ code).
      simpl. repeat (rewrite append_assoc; simpl). reflexivity.
    + exists (NUL ++ "[" ++ tag options ++ "]" ++ name options ++ NUL).
      simpl. repeat (rewrite append_assoc; simpl). reflexivity.
  - intros (Hn & Ht & Hx). rewrite !handshake_layout.
    assert (Hc : forall code, door_code options = Some code ->
                              occurrences Ascii.zero code = 0%nat).
    { intros code H. apply occurrences_free, Hx. now apply door_code_Some. }
    destruct (door_code options) as [code|]; simpl;
      rewrite ?occurrences_app; simpl; rewrite ?occurrences_app; simpl;
      rewrite ?occurrences_app; simpl;
      rewrite ?(occurrences_free _ _ Hn), ?(occurrences_free _ _ Ht),
        ?(Hc _ eq_refl); split; reflexivity.
Qed.

Lemma handshake_NUL_count_witness :
  NUL_free (scenario_A (Some "MRC"))
  /\ occurrences Ascii.zero (handshake Flag (scenario_A (Some "MRC"))) = 4%nat.
Proof.
  assert (F : NUL_free (scenario_A (Some "MRC"))).
  { repeat split; try discriminate.
    intros code H. inversion H. subst. repeat split; discriminate. }
  split; [exact F|].
  destruct (handshake_NUL_count (scenario_A (Some "MRC"))) as [_ H].
  destruct (H F) as [H1 _]. exact H1.
Defined.

(** X3: [createTCPAddr] ends with the port in decimal, which holds no colon
    and reads back as the port: the host is what precedes the last
    colon. *)
Theorem createTCPAddr_port_reads_back (options : CommandLine) :
  0 <= port options ->
  exists digits u,
    createTCPAddr options = host options ++ ":" ++ digits
    /\ free_of ":" digits
    /\ NilEmpty.uint_of_string digits = Some u
    /\ Z.of_N (N.of_uint u) = port options.
Proof.
  intros H. exists (Sprintf_d (port options)), (N.to_uint (Z.to_N (port options))).
  split; [reflexivity|]. split; [apply digits_free_of_colon|].
  split; [apply NilEmpty.usu|].
  rewrite Unsigned.of_to. now apply Z2N.id.
Qed.

Lemma createTCPAddr_port_reads_back_witness :
  createTCPAddr (scenario_A None) = "example.com:2513".
Proof.
  assert (H : 0 <= port (scenario_A None)) by (simpl; lia).
  destruct (createTCPAddr_port_reads_back (scenario_A None) H)
    as (digits & u & _ & _ & _ & _).
  reflexivity.
Defined.

(** X4: two configurations with the same address have the same host and the
    same port, whatever the host looks like. *)
Theorem createTCPAddr_injective (o1 o2 : CommandLine) :
  0 <= port o1 -> 0 <= port o2 ->
  createTCPAddr o1 = createTCPAddr o2 ->
  host o1 = host o2 /\ port o1 = port o2.
Proof.
  intros H1 H2 H. unfold createTCPAddr in H. simpl in H.
  apply split_at_last in H; try apply digits_free_of_colon.
  destruct H as [Eh Ed]. split; [exact Eh|].
  unfold Sprintf_d in Ed.
  assert (Eu : N.to_uint (Z.to_N (port o1)) = N.to_uint (Z.to_N (port o2))).
  { pose proof (NilEmpty.usu (N.to_uint (Z.to_N (port o1)))) as U1.
    rewrite Ed, NilEmpty.usu in U1. now inversion U1. }
  apply Unsigned.to_uint_inj in Eu. now apply Z2N.inj.
Qed.

Lemma createTCPAddr_injective_witness :
  host (scenario_A None) = host (scenario_A (Some "MRC"))
  /\ port (scenario_A None) = port (scenario_A (Some "MRC")).
Proof.
  apply createTCPAddr_injective; [simpl; lia | simpl; lia | reflexivity].
Defined.

Local Open Scope Z_scope.
Local Open Scope list_scope.

(** * Further properties of sessions *)

Section Views.

Variable c : Client.
Variable t : TelnetClient.

Lemma step_inv (l : Label) (w w' : World) :
  step c t l w = Some w' -> exit_status w = None /\ step_view c t w l w'.
Proof.
  unfold step. destruct (exit_status w) eqn:He; [discriminate|].
  intros H. split; [reflexivity|]. destruct l.
  - destruct (input_pump w) eqn:Hp; try discriminate.
    destruct (stdin w) as [|r rest] eqn:Hs; [discriminate|].
    inversion H; subst. now constructor.
  - destruct (input_pump w) eqn:Hp; try discriminate;
      destruct (orch w) eqn:Ho; try discriminate;
      inversion H; subst; now constructor.
  - destruct (orch w) eqn:Ho; try discriminate.
    inversion H; subst. now constructor.
  - destruct (server_pump w) eqn:Hp; try discriminate.
    destruct (socket w) as [|r rest] eqn:Hs; [discriminate|].
    inversion H; subst. now constructor.
  - destruct (server_pump w) eqn:Hp; try discriminate;
      destruct (orch w) eqn:Ho; try discriminate;
      inversion H; subst; now constructor.
  - destruct (orch w) eqn:Ho; try discriminate.
    inversion H; subst. now constructor.
  - destruct (orch w) eqn:Ho; try discriminate.
    destruct (now w =? fires_at (afterEOFResponseTicker v)) eqn:Hf;
      [|discriminate].
    apply Z.eqb_eq in Hf. inversion H; subst. now constructor.
  - destruct (orch w) eqn:Ho; try discriminate.
    destruct ((0 <=? d) && (now w + d <=? fires_at (afterEOFResponseTicker v)))
      eqn:Hd; [|discriminate].
    apply andb_true_iff in Hd. destruct Hd as [Hd1 Hd2].
    apply Z.leb_le in Hd1, Hd2. inversion H; subst.
    now apply view_delay with (v := v).
Qed.

(** An invariant of the steps is an invariant of the runs. *)
Lemma run_invariant (P : World -> Prop) :
  (forall l w w', P w -> step c t l w = Some w' -> P w') ->
  forall sched w w', P w -> run c t sched w = Some w' -> P w'.
Proof.
  intros Hstep sched. induction sched as [|l rest IH]; simpl; intros w w' Hw H.
  - now inversion H; subst.
  - destruct (step c t l w) as [w1|] eqn:Hs; [|discriminate].
    apply (IH w1 w'); [|exact H]. now apply (Hstep l w).
Qed.

End Views.

(** ** The handshake comes first *)

Section Growth.

Variable c : Client.
Variable t : TelnetClient.

Lemma step_extends_trace (l : Label) (w w' : World) :
  step c t l w = Some w' -> exists tr, trace w' = trace w ++ tr.
Proof.
  intros Hs. destruct (step_inv c t l w w' Hs) as [_ V]. destruct V;
    try (rewrite run_case_trace; simpl; eexists; reflexivity);
    try (exists []; simpl; now rewrite app_nil_r).
  - rewrite readInputData_read_trace. eexists; reflexivity.
  - rewrite readServerData_read_trace. eexists; reflexivity.
Qed.

Lemma run_extends_trace (sched : list Label) (w w' : World) :
  run c t sched w = Some w' -> exists tr, trace w' = trace w ++ tr.
Proof.
  revert w. induction sched as [|l rest IH]; simpl; intros w H.
  - inversion H; subst. exists []. now rewrite app_nil_r.
  - destruct (step c t l w) as [w1|] eqn:Hs; [|discriminate].
    destruct (step_extends_trace l w w1 Hs) as [tr1 E1].
    destruct (IH w1 H) as [tr2 E2].
    exists (tr1 ++ tr2). now rewrite E2, E1, app_assoc.
Qed.

End Growth.

(** X6: after a successful dial and handshake write, whatever the pumps, the
    clock and the scheduler do, the trace starts with the dial and the
    write of the whole handshake: the payload is the first thing on the
    connection and everything relayed comes after it. *)
Theorem handshake_is_sent_first (c : Client) (t : TelnetClient)
    (options : CommandLine) (env : Environment) (sched : list Label)
    (w : World) :
  env_dial env = DialOk ->
  env_handshake env = WriteOk ->
  run c t sched (ProcessData c t options env) = Some w ->
  exists tr,
    trace w
    = (Orchestrator, Dial DialOk)
      :: (Orchestrator, ConnWrite (bytes_of (handshake c options)) WriteOk)
      :: tr
    /\ sent_to_connection (trace w)
       = bytes_of (handshake c options) ++ sent_to_connection tr.
Proof.
  intros Hd Hh Hrun.
  destruct (run_extends_trace c t sched _ w Hrun) as [tr E].
  unfold ProcessData in E. rewrite Hd, Hh in E.
  destruct (NewTicker 0 (responseTimeout t)); simpl in E;
    rewrite E; eexists; split; reflexivity.
Qed.

(** ** After the end of input *)

Section InputSide.

Variable c : Client.
Variable t : TelnetClient.

Lemma select_case_closing (x : Z) (v v' : LoopVars) (k : SelectCase) :
  snd (select_case c t x v k) = Continue v' ->
  (k <> CaseDone -> closing v' = closing v)
  /\ (c = Kingpin -> closing v' = closing v).
Proof.
  destruct c, k; simpl; unfold write_request, relay_response; simpl;
    repeat match goal with
           | |- context [match ?r with _ => _ end] =>
               destruct r eqn:?; simpl
           end;
    intros H; inversion H; subst; simpl; split; auto;
    try discriminate; intros; congruence.
Qed.

Lemma select_case_stop_writes (x : Z) (v : LoopVars) (k : SelectCase) :
  snd (select_case c t x v k) = Return ClosingStopWrites ->
  closing v = true /\ exists request r, k = CaseRequest request r.
Proof.
  destruct c, k; simpl; unfold write_request, relay_response; simpl;
    repeat match goal with
           | |- context [match ?r with _ => _ end] =>
               destruct r eqn:?; simpl
           end;
    intros H; inversion H; eauto.
Qed.

Lemma run_case_holds_no_request (v : LoopVars) (k : SelectCase) (x : World) :
  holds_request (run_case c t v k x) = false.
Proof.
  unfold holds_request. rewrite run_case_orch.
  destruct (snd (select_case c t (now x) v k)); reflexivity.
Qed.

Lemma run_case_settled (v : LoopVars) (k : SelectCase) (x : World) :
  (c = Kingpin -> closing v = false) ->
  (closing v = true -> input_pump x = Terminated) ->
  (k = CaseDone -> input_pump x = Terminated) ->
  (forall request r, k = CaseRequest request r -> closing v = false) ->
  input_side_settled c (run_case c t v k x).
Proof.
  intros HK HT HD HR. unfold input_side_settled.
  split; [intros _; apply run_case_holds_no_request|].
  rewrite run_case_orch.
  destruct (run_case_rest c t v k x) as (_ & _ & _ & _ & _ & -> & _).
  destruct (snd (select_case c t (now x) v k)) as [v'|why|] eqn:E.
  - destruct (select_case_closing (now x) v v' k E) as [E1 E2].
    split; [|discriminate]. intros v1 H1. inversion H1; subst v1. split.
    + intros Hc. rewrite (E2 Hc). auto.
    + intros Hc. destruct k; try (apply HT; rewrite <- E1; [exact Hc|discriminate]).
      now apply HD.
  - split; [intros v1 H1; discriminate|].
    intros H. inversion H; subst why.
    destruct (select_case_stop_writes (now x) v k E)
      as (Hc & request & r & ->).
    rewrite (HR request r eq_refl) in Hc. discriminate.
  - split; [intros v1 H1; discriminate | discriminate].
Qed.

Lemma step_input_side_settled (l : Label) (w w' : World) :
  input_side_settled c w -> step c t l w = Some w' ->
  input_side_settled c w'.
Proof.
  intros (P1 & P2 & P3) Hs. destruct (step_inv c t l w w' Hs) as [He V].
  assert (Q : forall v, loop_vars (orch w) = Some v ->
                input_pump w <> Terminated -> closing v = false).
  { intros v Hv Hp. destruct (closing v) eqn:E; [|reflexivity].
    destruct (P2 v Hv) as [_ H]. now specialize (H E). }
  destruct V.
  - (* the input pump reads *)
    unfold input_side_settled.
    rewrite readInputData_read_orch. unfold holds_request.
    rewrite readInputData_read_orch.
    assert (Hp : input_pump (readInputData_read r rest w) <> Terminated).
    { unfold readInputData_read. destruct (rd_err r); simpl; discriminate. }
    split; [intros H'; contradiction|]. split; [|exact P3].
    intros v Hv. destruct (P2 v Hv) as [K1 K2]. split; [exact K1|].
    intros Hc. specialize (K2 Hc). rewrite H in K2. discriminate.
  - unfold input_side_settled, holds_request. simpl.
    split; [discriminate|]. split; [|discriminate].
    intros v1 H1. inversion H1; subst v1.
    destruct (P2 v) as [K1 K2]; [now rewrite H0|]. split; [exact K1|].
    intros Hc. specialize (K2 Hc). rewrite H in K2. discriminate.
  - destruct (P2 v) as [K1 K2]; [now rewrite H0|].
    apply run_case_settled; simpl; auto; discriminate.
  - assert (Hp : input_pump w <> Terminated).
    { intros Hp. specialize (P1 Hp). unfold holds_request in P1.
      rewrite H in P1. discriminate. }
    assert (Hc : closing v = false) by (apply Q; [now rewrite H | exact Hp]).
    apply run_case_settled; auto; try discriminate.
    rewrite Hc. discriminate.
  - unfold input_side_settled, holds_request.
    rewrite readServerData_read_orch.
    assert (E : input_pump (readServerData_read r rest w) = input_pump w).
    { unfold readServerData_read. destruct (rd_err r); reflexivity. }
    rewrite E. auto.
  - unfold input_side_settled, holds_request. simpl.
    split; [reflexivity|]. split; [|discriminate].
    intros v1 H1. inversion H1; subst v1. apply P2. now rewrite H0.
  - destruct (P2 v) as [K1 K2]; [now rewrite H0|].
    apply run_case_settled; simpl; auto; discriminate.
  - destruct (P2 v) as [K1 K2]; [now rewrite H|].
    apply run_case_settled; simpl; auto; discriminate.
  - destruct (P2 v) as [K1 K2]; [now rewrite H|].
    apply run_case_settled; simpl; auto; discriminate.
  - unfold input_side_settled, holds_request. simpl. auto.
Qed.

Lemma start_input_side_settled (options : CommandLine) (env : Environment) :
  input_side_settled c (ProcessData c t options env).
Proof.
  unfold ProcessData, input_side_settled, holds_request.
  destruct (env_dial env); [destruct (env_handshake env)|];
    [destruct (NewTicker 0 (responseTimeout t))| |]; simpl;
    (split; [discriminate|]); (split; [|discriminate]);
    intros v H; inversion H; subst; simpl; split; auto; discriminate.
Qed.

(** Once the input pump is gone and no request is held, nothing more goes
    out on the connection. *)
Lemma step_sends_nothing_after_eof (base : list byte) (l : Label)
    (w w' : World) :
  input_pump w = Terminated /\ holds_request w = false
  /\ sent_to_connection (trace w) = base ->
  step c t l w = Some w' ->
  input_pump w' = Terminated /\ holds_request w' = false
  /\ sent_to_connection (trace w') = base.
Proof.
  intros (Hp & Hh & Hb) Hs. destruct (step_inv c t l w w' Hs) as [He V].
  assert (Hcase : forall v k x,
            (forall request r, k <> CaseRequest request r) ->
            input_pump x = Terminated -> trace x = trace w ->
            input_pump (run_case c t v k x) = Terminated
            /\ holds_request (run_case c t v k x) = false
            /\ sent_to_connection (trace (run_case c t v k x)) = base).
  { intros v k x Hk Hx Ht.
    destruct (run_case_rest c t v k x) as (_ & _ & _ & _ & _ & -> & _).
    split; [exact Hx|]. split; [apply run_case_holds_no_request|].
    rewrite run_case_sent, other_cases_send_nothing by exact Hk.
    now rewrite app_nil_r, Ht. }
  unfold holds_request in Hh. destruct V;
    try (rewrite Hp in *; discriminate);
    try (rewrite H in Hh; discriminate);
    try (apply Hcase; simpl; auto; discriminate).
  - assert (E : input_pump (readServerData_read r rest w) = input_pump w).
    { unfold readServerData_read. destruct (rd_err r); reflexivity. }
    unfold holds_request.
    rewrite E, readServerData_read_orch, readServerData_read_trace,
      sent_to_connection_app.
    destruct (server_read_effects_neutral r) as [_ ->].
    rewrite app_nil_r. auto.
  - unfold holds_request. simpl. auto.
  - unfold holds_request. simpl. rewrite H. auto.
Qed.

End InputSide.

(** X7: no session ends through the guard of the request case: when the
    flag-based client sets [closing] the input pump is already gone, so no
    request can be received any more. *)
Theorem request_guard_never_fires (c : Client) (t : TelnetClient)
    (options : CommandLine) (env : Environment) (sched : list Label)
    (w : World) :
  run c t sched (ProcessData c t options env) = Some w ->
  orch w <> Returned ClosingStopWrites
  /\ (forall v, loop_vars (orch w) = Some v ->
        closing v = true -> eof_processed w).
Proof.
  intros Hrun.
  destruct (run_invariant c t (input_side_settled c)
              (step_input_side_settled c t) sched _ w
              (start_input_side_settled c t options env) Hrun)
    as (_ & P2 & P3).
  split; [exact P3|]. intros v Hv Hc. now apply (P2 v Hv).
Qed.

(** X8: once [select] has taken the end-of-input signal, nothing more is
    written to the connection, in either client and whatever follows. *)
Theorem nothing_sent_after_eof (c : Client) (t : TelnetClient)
    (options : CommandLine) (env : Environment) (before after : list Label)
    (w w' : World) :
  run c t before (ProcessData c t options env) = Some w ->
  eof_processed w ->
  run c t after w = Some w' ->
  sent_to_connection (trace w') = sent_to_connection (trace w)
  /\ eof_processed w'.
Proof.
  intros Hrun He Hafter.
  destruct (run_invariant c t (input_side_settled c)
              (step_input_side_settled c t) before _ w
              (start_input_side_settled c t options env) Hrun)
    as (P1 & _ & _).
  destruct (run_invariant c t _
              (step_sends_nothing_after_eof c t
                 (sent_to_connection (trace w)))
              after w w' (conj He (conj (P1 He) eq_refl)) Hafter)
    as (H1 & _ & H3).
  split; [exact H3 | exact H1].
Qed.

(** ** The timeout after a relayed response *)

Section SomethingRead.

Variable c : Client.
Variable t : TelnetClient.

Lemma select_case_output (x : Z) (v : LoopVars) (k : SelectCase) :
  written_to_output
    (map (pair Orchestrator) (fst (select_case c t x v k))) <> [] ->
  match snd (select_case c t x v k) with
  | Continue v' => somethingRead v' = true
  | Return _ => False
  | Panic => True
  end.
Proof.
  destruct c, k; simpl; unfold write_request, relay_response; simpl;
    repeat match goal with
           | |- context [match ?r with _ => _ end] =>
               destruct r eqn:?; simpl
           end;
    intros H; auto; now contradiction H.
Qed.

Lemma step_output_implies_something_read (l : Label) (w w' : World) :
  output_implies_something_read w -> step c t l w = Some w' ->
  output_implies_something_read w'.
Proof.
  intros K Hs. unfold output_implies_something_read in *.
  intros Hout.
  destruct (list_eq_dec (list_eq_dec Byte.byte_eq_dec)
              (written_to_output (trace w)) []) as [Hnil|Hnon].
  - destruct (step_has_shape c t l w w' Hs)
      as [r Ht _ _ | r Ht _ _ _ | v n Ht _ _ _ _
          | v0 v k x Hw Ht _ _ _ _ | v d Ht _ _ _ _ _ _].
    + rewrite Ht, written_to_output_app, Hnil in Hout.
      destruct (read_effects_write_no_output r) as [E _].
      rewrite E in Hout. now contradiction Hout.
    + rewrite Ht, written_to_output_app, Hnil in Hout.
      destruct (read_effects_write_no_output r) as [_ E].
      rewrite E in Hout. now contradiction Hout.
    + rewrite Ht in Hout. contradiction.
    + subst w'. rewrite run_case_trace, Ht, !written_to_output_app, Hnil,
        after_outcome_writes_no_output, app_nil_r in Hout. simpl in Hout.
      apply select_case_output in Hout.
      unfold something_read_set. rewrite run_case_orch.
      destruct (snd (select_case c t (now x) v k)) as [v'|why|].
      * split; [|discriminate]. intros v1 H1. now inversion H1; subst.
      * contradiction.
      * split; [intros v1 H1|]; discriminate.
    + rewrite Ht in Hout. contradiction.
  - apply (step_something_read_set c t l w); auto.
Qed.

Lemma start_output_implies_something_read (options : CommandLine)
    (env : Environment) :
  output_implies_something_read (ProcessData c t options env).
Proof.
  unfold ProcessData, output_implies_something_read.
  destruct (env_dial env); [destruct (env_handshake env)|];
    [destruct (NewTicker 0 (responseTimeout t))| |]; simpl;
    intros H; now contradiction H.
Qed.

End SomethingRead.

(** X9: a session that has written anything to local output does not end by
    the timeout case, in either client: [somethingRead] is set by the
    first relayed chunk and nothing clears it. *)
Theorem no_timeout_after_any_output (c : Client) (t : TelnetClient)
    (options : CommandLine) (env : Environment) (sched : list Label)
    (w : World) :
  run c t sched (ProcessData c t options env) = Some w ->
  written_to_output (trace w) <> [] ->
  orch w <> Returned InactivityTimeout
  /\ (forall v, loop_vars (orch w) = Some v -> somethingRead v = true).
Proof.
  intros Hrun Hout.
  destruct (run_invariant c t output_implies_something_read
              (step_output_implies_something_read c t) sched _ w
              (start_output_implies_something_read c t options env)
              Hrun Hout) as [H1 H2].
  auto.
Qed.

(** X10: inside the loop the ticker has the configured timeout as its period,
    a tick that is due is never overrun, and the next tick is at most one
    timeout away. *)
Theorem ticker_is_never_late (c : Client) (t : TelnetClient)
    (options : CommandLine) (env : Environment) (sched : list Label)
    (w : World) (v : LoopVars) :
  run c t sched (ProcessData c t options env) = Some w ->
  loop_vars (orch w) = Some v ->
  0 < responseTimeout t
  /\ every (afterEOFResponseTicker v) = responseTimeout t
  /\ now w <= fires_at (afterEOFResponseTicker v) <= now w + responseTimeout t.
Proof.
  intros Hrun Hv.
  exact (run_ticker_on_time c t sched _ w
           (start_ticker_on_time c t options env) Hrun v Hv).
Qed.

(** ** The ticker of the flag-based client *)

Section FlagTicker.

Variable t : TelnetClient.

Lemma flag_case_keeps_ticker (x : Z) (v v' : LoopVars) (k : SelectCase) :
  afterEOFMode v = closing v ->
  snd (select_case Flag t x v k) = Continue v' ->
  afterEOFMode v' = closing v'
  /\ afterEOFResponseTicker v' = afterEOFResponseTicker v.
Proof.
  intros Ha.
  destruct k; simpl; unfold write_request, relay_response; simpl;
    rewrite ?Ha;
    repeat match goal with
           | |- context [match ?r with _ => _ end] =>
               destruct r eqn:?; simpl
           end;
    intros H; inversion H; subst; simpl; split; congruence.
Qed.

Lemma flag_case_never_panics (x : Z) (v : LoopVars) (k : SelectCase) :
  afterEOFMode v = closing v ->
  snd (select_case Flag t x v k) <> Panic.
Proof.
  intros Ha.
  destruct k; simpl; unfold write_request, relay_response; simpl;
    rewrite ?Ha;
    repeat match goal with
           | |- context [match ?r with _ => _ end] =>
               destruct r eqn:?; simpl
           end;
    discriminate.
Qed.

Lemma step_flag_modes_agree (l : Label) (w w' : World) :
  flag_modes_agree w -> step Flag t l w = Some w' -> flag_modes_agree w'.
Proof.
  intros K Hs. unfold flag_modes_agree in *.
  destruct (step_has_shape Flag t l w w' Hs)
    as [r _ Ho _ | r _ Ho _ _ | v n _ Ho Ho' _ _
        | v0 v k x Hw _ _ _ Hv Hrel | v d _ Ho _ _ _ _ _].
  - now rewrite Ho.
  - now rewrite Ho.
  - specialize (K v). rewrite Ho in K. specialize (K eq_refl).
    intros v1 Hv1. destruct Ho' as [E|E]; rewrite E in Hv1;
      inversion Hv1; now subst.
  - assert (Ha : afterEOFMode v = closing v).
    { specialize (K v0 Hv). destruct Hrel as [-> | (_ & -> & _)]; auto. }
    subst w'. intros v1 Hv1. rewrite run_case_orch in Hv1.
    destruct (snd (select_case Flag t (now x) v k)) as [v2|why|] eqn:E;
      try discriminate.
    inversion Hv1; subst v1.
    now destruct (flag_case_keeps_ticker (now x) v v2 k Ha E).
  - now rewrite Ho.
Qed.

Lemma start_flag_modes_agree (options : CommandLine) (env : Environment) :
  flag_modes_agree (ProcessData Flag t options env).
Proof.
  unfold ProcessData, flag_modes_agree.
  destruct (env_dial env); [destruct (env_handshake env)|];
    [destruct (NewTicker 0 (responseTimeout t))| |]; simpl;
    intros v H; inversion H; reflexivity.
Qed.

End FlagTicker.

(** X11: in the flag-based client [afterEOFMode] and [closing] hold the same
    value in every state of the loop a session can reach.  The restart of
    the ticker in the response case is therefore never executed: whatever
    case runs, and at whatever instant, it leaves the ticker created
    before the loop in place, and [time.NewTicker] cannot panic inside the
    loop. *)
Theorem flag_ticker_is_never_replaced (t : TelnetClient)
    (options : CommandLine) (env : Environment) (sched : list Label)
    (w : World) (v : LoopVars) :
  run Flag t sched (ProcessData Flag t options env) = Some w ->
  loop_vars (orch w) = Some v ->
  afterEOFMode v = closing v
  /\ (forall x k,
        match snd (select_case Flag t x v k) with
        | Continue v' =>
            afterEOFResponseTicker v' = afterEOFResponseTicker v
        | Return _ => True
        | Panic => False
        end).
Proof.
  intros Hrun Hv.
  assert (Ha : afterEOFMode v = closing v).
  { apply (run_invariant Flag t flag_modes_agree (step_flag_modes_agree t)
             sched _ w (start_flag_modes_agree t options env) Hrun v Hv). }
  split; [exact Ha|]. intros x k.
  pose proof (flag_case_never_panics t x v k Ha) as Hp.
  destruct (snd (select_case Flag t x v k)) as [v'|why|] eqn:E.
  - now destruct (flag_case_keeps_ticker t x v v' k Ha E).
  - exact I.
  - now apply Hp.
Qed.

(** ** Fidelity of the relay from the socket to [outputData.Write] *)

Section OutputFidelity.

Variable c : Client.
Variable t : TelnetClient.

Lemma read_from_socket_app (tr1 tr2 : Trace) :
  read_from_socket (tr1 ++ tr2) = read_from_socket tr1 ++ read_from_socket tr2.
Proof.
  induction tr1 as [|[a e] tr1 IH]; simpl; [reflexivity|].
  destruct a, e; simpl; rewrite ?IH; try reflexivity.
  destruct (rd_err r); rewrite ?app_assoc; reflexivity.
Qed.

Lemma handed_to_output_app (tr1 tr2 : Trace) :
  handed_to_output (tr1 ++ tr2) = handed_to_output tr1 ++ handed_to_output tr2.
Proof. unfold handed_to_output. now rewrite written_to_output_app, concat_app. Qed.

Lemma orchestrator_reads_no_socket (es : list Effect) :
  read_from_socket (map (pair Orchestrator) es) = [].
Proof. induction es as [|e es IH]; simpl; auto. Qed.

Lemma after_outcome_silent (out : Outcome) :
  read_from_socket (after_outcome out) = []
  /\ handed_to_output (after_outcome out) = [].
Proof. destruct out; auto. Qed.

Lemma input_read_effects_silent (r : ReadResult) :
  read_from_socket (input_read_effects r) = []
  /\ handed_to_output (input_read_effects r) = [].
Proof. unfold input_read_effects. destruct (rd_err r); auto. Qed.

Lemma server_read_effects_read (r : ReadResult) :
  read_from_socket (server_read_effects r)
  = match rd_err r with ErrNil => rd_data r | _ => [] end
  /\ handed_to_output (server_read_effects r) = [].
Proof.
  unfold server_read_effects. simpl.
  destruct (rd_err r); simpl; rewrite ?app_nil_r; auto.
Qed.

(** What the response case passes to [outputData.Write]: nothing or the
    whole response, and the whole response when the loop goes on. *)
Lemma response_case_writes (x : Z) (v : LoopVars) (response : list byte) :
  let res := select_case c t x v (CaseResponse response) in
  is_prefix (handed_to_output (map (pair Orchestrator) (fst res))) response
  /\ (forall v', snd res = Continue v' ->
        handed_to_output (map (pair Orchestrator) (fst res)) = response).
Proof.
  assert (R : forall v0,
            let res := relay_response t x v0 response in
            is_prefix (handed_to_output (map (pair Orchestrator) (fst res)))
              response
            /\ (forall v', snd res = Continue v' ->
                  handed_to_output (map (pair Orchestrator) (fst res)) = response)).
  { intros v0. unfold relay_response. simpl.
    destruct (afterEOFMode v0); [destruct (NewTicker x (responseTimeout t))|];
      unfold handed_to_output; simpl; rewrite app_nil_r;
      (split; [apply is_prefix_refl | reflexivity]). }
  destruct c; simpl; [apply R|]. destruct (closing v); [|apply R].
  unfold handed_to_output. simpl. split; [now exists response | discriminate].
Qed.

Lemma other_cases_write_nothing (x : Z) (v : LoopVars) (k : SelectCase) :
  (forall response, k <> CaseResponse response) ->
  handed_to_output (map (pair Orchestrator) (fst (select_case c t x v k))) = [].
Proof.
  intros Hk. destruct c, k; simpl; unfold write_request; simpl;
    try (exfalso; eapply Hk; reflexivity);
    repeat match goal with
           | |- context [match ?r with _ => _ end] => destruct r; simpl
           end; reflexivity.
Qed.

Lemma run_case_read_from_socket (v : LoopVars) (k : SelectCase) (x : World) :
  read_from_socket (trace (run_case c t v k x)) = read_from_socket (trace x).
Proof.
  rewrite run_case_trace, !read_from_socket_app, orchestrator_reads_no_socket.
  destruct (after_outcome_silent (snd (select_case c t (now x) v k)))
    as [-> _].
  now rewrite !app_nil_r.
Qed.

Lemma run_case_output (v : LoopVars) (k : SelectCase) (x : World) :
  handed_to_output (trace (run_case c t v k x))
  = handed_to_output (trace x)
    ++ handed_to_output
         (map (pair Orchestrator) (fst (select_case c t (now x) v k))).
Proof.
  rewrite run_case_trace, !handed_to_output_app.
  destruct (after_outcome_silent (snd (select_case c t (now x) v k)))
    as [_ ->].
  now rewrite !app_nil_r.
Qed.

Lemma run_case_pending_response (v : LoopVars) (k : SelectCase) (x : World) :
  exit_status (run_case c t v k x) = None ->
  pending_response (run_case c t v k x)
  = match server_pump x with
    | Sending n => firstn n (server_buffer x)
    | _ => []
    end
  /\ holds_response (run_case c t v k x) = false.
Proof.
  unfold pending_response, holds_response.
  rewrite run_case_exit_status, run_case_orch.
  destruct (run_case_rest c t v k x) as (_ & _ & _ & _ & -> & _ & ->).
  destruct (snd (select_case c t (now x) v k)); try discriminate.
  intros _. split; reflexivity.
Qed.

Lemma pending_response_without_hold (w : World) :
  holds_response w = false ->
  pending_response w = match server_pump w with
                       | Sending n => firstn n (server_buffer w)
                       | _ => []
                       end.
Proof.
  unfold pending_response, holds_response.
  destruct (orch w); try discriminate; reflexivity.
Qed.

Lemma output_fidelity_other_case (v : LoopVars) (k : SelectCase)
    (w x : World) :
  (forall response, k <> CaseResponse response) ->
  read_from_socket (trace w) = handed_to_output (trace w) ++ pending_response w ->
  holds_response w = false ->
  trace x = trace w ->
  server_buffer x = server_buffer w ->
  (server_pump x = server_pump w
   \/ (server_pump w = Signalling /\ server_pump x = Terminated)) ->
  output_fidelity (run_case c t v k x).
Proof.
  intros Hk Hread Hh Ht Hb Hp.
  rewrite (pending_response_without_hold w Hh) in Hread.
  unfold output_fidelity.
  rewrite run_case_output, other_cases_write_nothing by exact Hk.
  rewrite run_case_read_from_socket, app_nil_r, Ht.
  destruct (exit_status (run_case c t v k x)) eqn:E.
  - destruct (run_case_rest c t v k x) as (_ & _ & _ & _ & _ & _ & ->).
    rewrite Hread. split.
    + eexists. reflexivity.
    + intros HT. destruct Hp as [Hp | [Hp _]]; rewrite ?Hp in *;
        rewrite ?HT in *; rewrite ?Hp in *; now rewrite app_nil_r.
  - destruct (run_case_pending_response v k x E) as [-> ->].
    rewrite Hb. split; [|discriminate].
    rewrite Hread. destruct Hp as [-> | [-> ->]]; reflexivity.
Qed.

Lemma step_output_fidelity (l : Label) (w w' : World) :
  output_fidelity w ->
  step c t l w = Some w' ->
  is_ServerRead l && holds_response w = false ->
  output_fidelity w'.
Proof.
  intros F Hs Hok. destruct (step_inv c t l w w' Hs) as [He V].
  unfold output_fidelity in F. rewrite He in F. destruct F as [Hread Hhold].
  destruct V.
  - (* the input pump reads *)
    unfold output_fidelity.
    rewrite readInputData_read_trace, read_from_socket_app, handed_to_output_app.
    destruct (input_read_effects_silent r) as [-> ->]. rewrite !app_nil_r.
    assert (E : pending_response (readInputData_read r rest w)
                = pending_response w
                /\ holds_response (readInputData_read r rest w)
                   = holds_response w
                /\ server_pump (readInputData_read r rest w) = server_pump w).
    { unfold pending_response, holds_response.
      rewrite readInputData_read_orch.
      unfold readInputData_read. destruct (rd_err r); auto. }
    destruct E as (E1 & E2 & E3).
    destruct (exit_status (readInputData_read r rest w)).
    + rewrite E3, Hread. split; [eexists; reflexivity|].
      intros HT. unfold pending_response, holds_response in *.
      rewrite HT in *.
      destruct (orch w); try (now rewrite app_nil_r).
      specialize (Hhold eq_refl). discriminate.
    + now rewrite E1, E2, E3.
  - unfold output_fidelity. simpl. rewrite He.
    unfold pending_response, holds_response in *. simpl.
    rewrite H0 in Hread. split; [exact Hread | discriminate].
  - apply output_fidelity_other_case with (w := w); simpl; auto.
    + discriminate.
    + unfold holds_response. now rewrite H0.
  - apply output_fidelity_other_case with (w := w); simpl; auto.
    + discriminate.
    + unfold holds_response. now rewrite H.
  - (* the server pump reads *)
    simpl in Hok.
    rewrite (pending_response_without_hold w Hok), H, app_nil_r in Hread.
    unfold output_fidelity.
    rewrite readServerData_read_exit_status, He, readServerData_read_trace,
      read_from_socket_app, handed_to_output_app, Hread.
    destruct (server_read_effects_read r) as [-> ->]. rewrite app_nil_r.
    unfold pending_response, holds_response. rewrite readServerData_read_orch.
    unfold holds_response in Hok.
    unfold readServerData_read.
    destruct (rd_err r); simpl; destruct (orch w); try discriminate;
      rewrite ?firstn_read_into, ?app_nil_r;
      (split; [reflexivity | discriminate]).
  - unfold output_fidelity. simpl. rewrite He.
    unfold pending_response, holds_response in *. simpl.
    rewrite H, H0 in Hread. auto.
  - apply output_fidelity_other_case with (w := w); simpl; auto.
    + discriminate.
    + unfold holds_response. now rewrite H0.
  - (* the response case runs *)
    assert (Hp : server_pump w = Reading).
    { apply Hhold. unfold holds_response. now rewrite H. }
    unfold pending_response in Hread. rewrite H in Hread.
    destruct (response_case_writes (now w) v (firstn n (server_buffer w)))
      as [[rest Hpre] Hall].
    unfold output_fidelity.
    rewrite run_case_output, run_case_read_from_socket, Hread.
    destruct (exit_status (run_case c t v
                (CaseResponse (firstn n (server_buffer w))) w)) eqn:E.
    + destruct (run_case_rest c t v
                  (CaseResponse (firstn n (server_buffer w))) w)
        as (_ & _ & _ & _ & _ & _ & ->).
      rewrite Hp. split; [|discriminate].
      apply is_prefix_app. now exists rest.
    + destruct (run_case_pending_response v
                  (CaseResponse (firstn n (server_buffer w))) w E)
        as [-> ->].
      rewrite Hp, app_nil_r. split; [|discriminate].
      rewrite run_case_exit_status in E.
      destruct (snd (select_case c t (now w) v
                       (CaseResponse (firstn n (server_buffer w)))))
        as [v'| |] eqn:E'; try discriminate.
      now rewrite (Hall v' eq_refl).
  - apply output_fidelity_other_case with (w := w); simpl; auto.
    + discriminate.
    + unfold holds_response. now rewrite H.
  - unfold output_fidelity. simpl. rewrite He.
    unfold pending_response, holds_response in *. simpl.
    rewrite H in *. split; [exact Hread | discriminate].
Qed.

Lemma run_output_fidelity (sched : list Label) (w w' : World) :
  output_fidelity w ->
  run c t sched w = Some w' ->
  response_handoff_respected c t sched w = true ->
  output_fidelity w'.
Proof.
  revert w. induction sched as [|l rest IH]; simpl; intros w F H Hr.
  - now inversion H; subst.
  - destruct (step c t l w) as [w1|] eqn:Hs; [|discriminate].
    apply andb_true_iff in Hr. destruct Hr as [Hr1 Hr2].
    apply negb_true_iff in Hr1.
    apply (IH w1); auto.
    now apply (step_output_fidelity l w).
Qed.

Lemma start_output_fidelity (options : CommandLine) (env : Environment) :
  output_fidelity (ProcessData c t options env).
Proof.
  unfold ProcessData, output_fidelity.
  destruct (env_dial env); [destruct (env_handshake env)|];
    [destruct (NewTicker 0 (responseTimeout t))| |]; simpl;
    (split; [try reflexivity; apply is_prefix_refl
            | try discriminate; reflexivity]).
Qed.

End OutputFidelity.

(** X12: as long as the server pump does not call [Read] again while the
    orchestrator still holds a slice it has not passed on, the bytes passed
    to [outputData.Write], call after call, are an initial segment of the
    bytes read from the socket with a nil error, in the same order, and
    they are all of them once the disconnect signal has been taken.  The
    code discards what each call returns: what reaches local output when a
    call fails or falls short is not stated here. *)
Theorem handed_to_output_is_prefix_of_socket_input (c : Client) (t : TelnetClient)
    (options : CommandLine) (env : Environment) (sched : list Label)
    (w : World) :
  let w0 := ProcessData c t options env in
  run c t sched w0 = Some w ->
  response_handoff_respected c t sched w0 = true ->
  is_prefix (handed_to_output (trace w)) (read_from_socket (trace w))
  /\ (disconnect_processed w ->
      handed_to_output (trace w) = read_from_socket (trace w)).
Proof.
  intros w0 Hrun Hr.
  pose proof (run_output_fidelity c t sched w0 w
                (start_output_fidelity c t options env) Hrun Hr) as F.
  unfold output_fidelity in F. destruct (exit_status w).
  - exact F.
  - destruct F as [Hread Hhold]. rewrite Hread. split.
    + eexists. reflexivity.
    + unfold disconnect_processed. intros HT.
      unfold pending_response. unfold holds_response in Hhold.
      rewrite HT in *.
      destruct (orch w); try (now rewrite app_nil_r).
      specialize (Hhold eq_refl). discriminate.
Qed.



(** ** Sessions that show the hypotheses can be met *)

Lemma handshake_is_sent_first_witness :
  exists w,
    run Flag (scenario_client (200 * Millisecond)) relay_two_chunks
      (scenario Flag (200 * Millisecond) [chunk "ab"; chunk "cd"; eof] [])
    = Some w
    /\ sent_to_connection (trace w)
       = bytes_of (handshake Flag (scenario_options (200 * Millisecond)))
         ++ bytes_of "abcd".
Proof.
  eexists.
  match goal with
  | |- ?R = Some ?w /\ _ =>
      assert (Hrun : R = Some w) by (vm_compute; reflexivity)
  end.
  split; [exact Hrun|].
  destruct (handshake_is_sent_first Flag (scenario_client (200 * Millisecond))
              (scenario_options (200 * Millisecond))
              (environment [chunk "ab"; chunk "cd"; eof] [])
              relay_two_chunks _ eq_refl eq_refl Hrun) as (tr & Ht & Hs).
  rewrite Hs. f_equal. injection Ht as Ht. rewrite <- Ht. reflexivity.
Defined.

Lemma request_guard_never_fires_witness :
  exists w,
    run Flag (scenario_client (200 * Millisecond)) relay_two_chunks
      (scenario Flag (200 * Millisecond) [chunk "ab"; chunk "cd"; eof] [])
    = Some w
    /\ orch w <> Returned ClosingStopWrites.
Proof.
  eexists.
  match goal with
  | |- ?R = Some ?w /\ _ =>
      assert (Hrun : R = Some w) by (vm_compute; reflexivity)
  end.
  split; [exact Hrun|].
  apply (request_guard_never_fires Flag (scenario_client (200 * Millisecond))
           (scenario_options (200 * Millisecond))
           (environment [chunk "ab"; chunk "cd"; eof] [])
           relay_two_chunks _ Hrun).
Defined.

Lemma nothing_sent_after_eof_witness :
  exists w w',
    run Kingpin (scenario_client (200 * Millisecond)) relay_two_chunks
      (scenario Kingpin (200 * Millisecond) [chunk "ab"; chunk "cd"; eof]
         [chunk "bye"])
    = Some w
    /\ run Kingpin (scenario_client (200 * Millisecond)) relay_one_response w
       = Some w'
    /\ sent_to_connection (trace w') = sent_to_connection (trace w).
Proof.
  eexists. eexists.
  match goal with
  | |- ?R = Some ?w /\ ?R' = Some ?w' /\ _ =>
      assert (Hrun : R = Some w) by (vm_compute; reflexivity);
      assert (Hrun' : R' = Some w') by (vm_compute; reflexivity)
  end.
  split; [exact Hrun|]. split; [exact Hrun'|].
  apply (nothing_sent_after_eof Kingpin (scenario_client (200 * Millisecond))
           (scenario_options (200 * Millisecond))
           (environment [chunk "ab"; chunk "cd"; eof] [chunk "bye"])
           relay_two_chunks relay_one_response _ _ Hrun eq_refl Hrun').
Defined.

Lemma no_timeout_after_any_output_witness :
  exists w,
    run Kingpin (scenario_client (200 * Millisecond))
      (scenario_D_until_arrival
         ++ [RunResponse; Delay (200 * Millisecond); Tick])
      (scenario Kingpin (200 * Millisecond) [eof] [chunk "bye"]) = Some w
    /\ written_to_output (trace w) <> []
    /\ orch w <> Returned InactivityTimeout.
Proof.
  eexists.
  match goal with
  | |- ?R = Some ?w /\ _ =>
      assert (Hrun : R = Some w) by (vm_compute; reflexivity)
  end.
  split; [exact Hrun|].
  assert (Hout : forall A (x : A) l, x :: l <> []) by discriminate.
  split; [apply Hout|].
  apply (no_timeout_after_any_output Kingpin
           (scenario_client (200 * Millisecond))
           (scenario_options (200 * Millisecond))
           (environment [eof] [chunk "bye"]) _ _ Hrun (Hout _ _ _)).
Defined.

Lemma ticker_is_never_late_witness :
  exists w v,
    run Kingpin (scenario_client (200 * Millisecond)) scenario_D_until_arrival
      (scenario Kingpin (200 * Millisecond) [eof] [chunk "bye"]) = Some w
    /\ loop_vars (orch w) = Some v
    /\ now w <= fires_at (afterEOFResponseTicker v)
       <= now w + 200 * Millisecond.
Proof.
  eexists. eexists.
  match goal with
  | |- ?R = Some ?w /\ _ =>
      assert (Hrun : R = Some w) by (vm_compute; reflexivity)
  end.
  split; [exact Hrun|]. split; [reflexivity|].
  apply (ticker_is_never_late Kingpin (scenario_client (200 * Millisecond))
           (scenario_options (200 * Millisecond))
           (environment [eof] [chunk "bye"]) _ _ _ Hrun eq_refl).
Defined.

Lemma flag_ticker_is_never_replaced_witness :
  exists w v,
    run Flag (scenario_client (200 * Millisecond)) scenario_D_until_arrival
      (scenario Flag (200 * Millisecond) [eof] [chunk "bye"]) = Some w
    /\ loop_vars (orch w) = Some v
    /\ afterEOFMode v = closing v
    /\ closing v = true.
Proof.
  eexists. eexists.
  match goal with
  | |- ?R = Some ?w /\ _ =>
      assert (Hrun : R = Some w) by (vm_compute; reflexivity)
  end.
  split; [exact Hrun|]. split; [reflexivity|]. split; [|reflexivity].
  apply (flag_ticker_is_never_replaced (scenario_client (200 * Millisecond))
           (scenario_options (200 * Millisecond))
           (environment [eof] [chunk "bye"]) _ _ _ Hrun eq_refl).
Defined.

Lemma handed_to_output_is_prefix_of_socket_input_witness :
  exists w,
    run Kingpin (scenario_client (200 * Millisecond)) relay_two_responses
      (scenario Kingpin (200 * Millisecond) [] [chunk "hi"; chunk "yo"; eof])
    = Some w
    /\ response_handoff_respected Kingpin
         (scenario_client (200 * Millisecond)) relay_two_responses
         (scenario Kingpin (200 * Millisecond) []
            [chunk "hi"; chunk "yo"; eof])
       = true
    /\ handed_to_output (trace w) = bytes_of "hiyo".
Proof.
  eexists.
  match goal with
  | |- ?R = Some ?w /\ ?H = true /\ _ =>
      assert (Hrun : R = Some w) by (vm_compute; reflexivity);
      assert (Hresp : H = true) by (vm_compute; reflexivity)
  end.
  split; [exact Hrun|]. split; [exact Hresp|].
  destruct (handed_to_output_is_prefix_of_socket_input Kingpin
              (scenario_client (200 * Millisecond))
              (scenario_options (200 * Millisecond))
              (environment [] [chunk "hi"; chunk "yo"; eof])
              relay_two_responses _ Hrun Hresp) as [_ Hall].
  rewrite (Hall eq_refl). reflexivity.
Defined.
